(** * kismet_interactive_diff: inventory builder and diff engine

    A shallow embedding of the analysis functions of
    [kismet_interactive_diff.py]: [_process_device], [parse_kismet_log],
    [report_new_and_missing], [_report_ap_changes], [_get_ap_changes],
    [_report_client_changes], [_get_client_probe_changes] and
    [report_probed_ssid_analysis].

    Data model.
    - A Python [dict] keyed by strings is a [gmap string _], a [set] of
      strings a [gset string]; [d.keys() - e.keys()] is [dom d ∖ dom e] and
      [d.keys() & e.keys()] is [dom d ∩ dom e].
    - A Python [str] is a [string] holding its UTF-8 bytes.  Comparing
      such byte strings lexicographically orders them as Python orders the
      strings by code point, which is the order [sorted] uses.
    - One decoded log line is a [device]: the fields [_process_device]
      reads from the dict, [None] when [dict.get] finds no such key.
      Kismet writes the MAC address and the device type as JSON strings
      and the probed SSID map as a JSON object whose keys are the names;
      the record gives them those types, so a log in which one of them
      has another JSON type (where Python would raise or use a key that
      is not a string) is not an input here.  The three access-point
      attributes are read without any test on their type, so they are
      kept as JSON scalars ([value]): null, booleans, integers, strings
      and the three floats [json.loads] reads from the constants [NaN],
      [Infinity] and [-Infinity].  The finite floats, read from a number
      with a fraction or an exponent, are left out of [value].
    - [print] is kept as the list of printed lines, each line a
      constructor of [line] holding the values the f-string interpolates;
      [render] gives the text. *)

From stdpp Require Import gmap strings list fin_maps fin_sets sorting pretty.


(** ** Python values *)

(** The floats [json.loads] reads from the constants [NaN], [Infinity]
    and [-Infinity]. *)
Inductive json_constant :=
  | NaN
  | Infinity
  | NegInfinity.

Global Instance json_constant_eq_dec : EqDecision json_constant.
Proof. solve_decision. Defined.

(** The JSON scalars as [json.loads] returns them. *)
Inductive value :=
  | VNone
  | VBool (b : bool)
  | VInt (z : Z)
  | VStr (s : string)
  | VConst (k : json_constant).

Global Instance value_eq_dec : EqDecision value.
Proof. solve_decision. Defined.

(** The number a [bool] or [int] denotes in a comparison ([True == 1]). *)
Definition value_num (v : value) : option Z :=
  match v with
  | VBool b => Some (if b then 1%Z else 0%Z)
  | VInt z => Some z
  | _ => None
  end.

(** Python's [a == b] on these values.  [nan] equals nothing, itself
    included; an infinity equals the infinity of its sign and no
    integer. *)
Definition py_eqb (a b : value) : bool :=
  match a, b with
  | VNone, VNone => true
  | VStr s, VStr t => bool_decide (s = t)
  | (VBool _ | VInt _), (VBool _ | VInt _) =>
      bool_decide (value_num a = value_num b)
  | VConst Infinity, VConst Infinity => true
  | VConst NegInfinity, VConst NegInfinity => true
  | _, _ => false
  end.

(** Python's [a != b]. *)
Definition py_ne (a b : value) : bool := negb (py_eqb a b).

(** Python's [str(v)], also what an f-string field [{v}] prints. *)
Definition py_str (v : value) : string :=
  match v with
  | VNone => "None"
  | VBool true => "True"
  | VBool false => "False"
  | VInt z => pretty z
  | VStr s => s
  | VConst NaN => "nan"
  | VConst Infinity => "inf"
  | VConst NegInfinity => "-inf"
  end.

(** [needle in s] on two strings. *)
Fixpoint str_contains (needle s : string) : bool :=
  String.prefix needle s ||
  match s with
  | EmptyString => false
  | String _ s' => str_contains needle s'
  end.

(** [not s] for [s] the result of [dict.get]: [None] and [''] are falsy. *)
Definition py_not (o : option string) : bool :=
  match o with
  | None => true
  | Some s => bool_decide (s = "")
  end.

(** ** Records and tables *)

Record device := Device {
  kismet_device_base_macaddr : option string;
  kismet_device_base_type : option string;
  kismet_device_base_name : option value;
  kismet_common_channel : option value;
  dot11_network_crypt_set : option value;
  (** the keys of the JSON object, in document order *)
  dot11_client_probed_ssid_map : option (list string)
}.

(** The dict [{'ssid': .., 'channel': .., 'crypt': ..}] stored per AP. *)
Record ap := Ap {
  ssid : value;
  channel : value;
  crypt : string
}.

Global Instance ap_eq_dec : EqDecision ap.
Proof. solve_decision. Defined.

(** The dict [{'probed_ssids': ..}] stored per client. *)
Record client := Client {
  probed_ssids : gset string
}.

Global Instance client_eq_dec : EqDecision client.
Proof. solve_decision. Defined.

(** The three tables [parse_kismet_log] fills and returns. *)
Record tables := Tables {
  aps : gmap string ap;
  clients : gmap string client;
  probed_ssid_map : gmap string (gset string)
}.

(** [d.get(k, default)]. *)
Definition get_default {A} (o : option A) (default : A) : A :=
  match o with
  | Some v => v
  | None => default
  end.

(** [probed_ssid_map[probe].add(mac)] on a [defaultdict(set)]. *)
Definition add_probe (probe mac : string) (m : gmap string (gset string))
  : gmap string (gset string) :=
  <[probe := get_default (m !! probe) ∅ ∪ {[mac]}]> m.

(** The loop [for probe in probes: if probe: ...]. *)
Definition index_probes (mac : string) (probes : gset string)
    (m : gmap string (gset string)) : gmap string (gset string) :=
  set_fold (λ probe acc,
              if bool_decide (probe ≠ "") then add_probe probe mac acc
              else acc)
           m probes.

(** ** Inventory builder *)

Definition _process_device (d : device) (t : tables) : tables :=
  let mac := kismet_device_base_macaddr d in
  let dev_type := kismet_device_base_type d in
  if py_not mac || py_not dev_type then t
  else
    match mac, dev_type with
    | Some mac, Some dev_type =>
        if bool_decide (dev_type = "Wi-Fi AP") then
          let ssid := get_default (kismet_device_base_name d) (VStr "N/A") in
          let channel := get_default (kismet_common_channel d) (VStr "N/A") in
          let crypt_set :=
            get_default (dot11_network_crypt_set d) (VStr "Unknown") in
          Tables (<[mac := Ap ssid channel (py_str crypt_set)]> (aps t))
                 (clients t) (probed_ssid_map t)
        else if str_contains "Wi-Fi" dev_type
                && bool_decide (dev_type ≠ "Wi-Fi AP") then
          let probes : gset string :=
            list_to_set (get_default (dot11_client_probed_ssid_map d) []) in
          Tables (aps t)
                 (<[mac := Client probes]> (clients t))
                 (index_probes mac probes (probed_ssid_map t))
        else t
    | _, _ => t
    end.

(** One line of the log file: [json.loads] either raises
    [JSONDecodeError] ([None], the line is skipped) or returns the dict.
    The file is given as the list of its lines; when it cannot be opened
    the program exits before any table is built. *)
Definition log_line := option device.

Definition parse_step (t : tables) (l : log_line) : tables :=
  match l with
  | Some d => _process_device d t
  | None => t
  end.

Definition empty_tables : tables := Tables ∅ ∅ ∅.

Definition parse_kismet_log (lines : list log_line) : tables :=
  foldl parse_step empty_tables lines.

(** ** Sorting and printing *)

(** The order of [sorted] on strings. *)
Definition str_le (s t : string) : Prop := String.leb s t = true.

Global Instance str_le_dec : RelDecision str_le.
Proof. intros s t. unfold str_le. apply _. Defined.

(** [sorted(X)] for a set or a keys view [X] of strings. *)
Definition sorted (X : gset string) : list string :=
  merge_sort str_le (elements X).

(** One change found by [_get_ap_changes]; the source keeps its text. *)
Inductive change :=
  | SsidChanged (old new : value)
  | ChannelChanged (old new : value)
  | EncryptionChanged (old new : string).

Global Instance change_eq_dec : EqDecision change.
Proof. solve_decision. Defined.

(** One [print] call, with the values its f-string interpolates. *)
Inductive line :=
  | ApSectionHeader
  | NewApCount (n : nat)
  | MissingApCount (n : nat)
  | ApEntry (mac : string) (ssid : value)
  | ClientSectionHeader
  | NewClientCount (n : nat)
  | MissingClientCount (n : nat)
  | ClientEntry (mac : string)
  | Rule
  | ChangesHeader
  | AnalyzingAps (n : nat)
  | ApChanged (mac : string) (ssid : value)
  | ChangeLine (c : change)
  | AnalyzingClients (n : nat)
  | ClientChanged (mac : string)
  | StartedProbing (names : list string)
  | StoppedProbing (names : list string)
  | ProbedHeader
  | NewProbedCount (n : nat)
  | NewProbed (name : string) (macs : list string)
  | GoneProbedCount (n : nat)
  | GoneProbed (name : string).

Global Instance line_eq_dec : EqDecision line.
Proof. solve_decision. Defined.

Definition nl : string := String (Ascii.ascii_of_nat 10) "".

(** [s * n]. *)
Fixpoint str_mul (s : string) (n : nat) : string :=
  match n with
  | O => ""
  | S n => s +:+ str_mul s n
  end.

(** [', '.join(l)]. *)
Definition join (l : list string) : string := String.concat ", " l.

Definition render_change (c : change) : string :=
  match c with
  | SsidChanged old new =>
      "SSID changed: '" +:+ py_str old +:+ "' -> '" +:+ py_str new +:+ "'"
  | ChannelChanged old new =>
      "Channel changed: " +:+ py_str old +:+ " -> " +:+ py_str new
  | EncryptionChanged old new =>
      "Encryption changed: " +:+ old +:+ " -> " +:+ new
  end.

Definition render (l : line) : string :=
  match l with
  | ApSectionHeader => nl +:+ "--- 🛰️ New and Missing Access Points ---"
  | NewApCount n => "[+] New APs: " +:+ pretty n
  | MissingApCount n => "[-] Missing APs: " +:+ pretty n
  | ApEntry mac ssid => "  - " +:+ mac +:+ " (SSID: " +:+ py_str ssid +:+ ")"
  | ClientSectionHeader => nl +:+ "--- 💻 New and Missing Clients ---"
  | NewClientCount n => "[+] New Clients: " +:+ pretty n
  | MissingClientCount n => "[-] Missing Clients: " +:+ pretty n
  | ClientEntry mac => "  - " +:+ mac
  | Rule => nl +:+ str_mul "=" 50 +:+ nl
  | ChangesHeader => "--- 🔄 Environmental Changes for Common Devices ---"
  | AnalyzingAps n =>
      nl +:+ "[*] Analyzing " +:+ pretty n
         +:+ " common Access Points for changes..."
  | ApChanged mac ssid =>
      "  - AP: " +:+ mac +:+ " (SSID: " +:+ py_str ssid +:+ ")"
  | ChangeLine c => "    - " +:+ render_change c
  | AnalyzingClients n =>
      nl +:+ "[*] Analyzing " +:+ pretty n +:+ " common Clients for changes..."
  | ClientChanged mac => "  - Client: " +:+ mac
  | StartedProbing names => "    - Started probing for: " +:+ join names
  | StoppedProbing names => "    - Stopped probing for: " +:+ join names
  | ProbedHeader => "--- 📡 Probed SSID Analysis ---"
  | NewProbedCount n =>
      nl +:+ "[+] New SSIDs being probed for: " +:+ pretty n
  | NewProbed name macs => "  - '" +:+ name +:+ "' (by: " +:+ join macs +:+ ")"
  | GoneProbedCount n =>
      nl +:+ "[-] SSIDs no longer being probed for: " +:+ pretty n
  | GoneProbed name => "  - '" +:+ name +:+ "'"
  end.

(** ** Diff engine *)

(** A subscript [d[k]] raises [KeyError] on a missing key: the reports
    run in the [option] monad and [None] is that exception. *)

(** [comp.keys() - baseline.keys()]. *)
Definition new_keys {V} (baseline comp : gmap string V) : gset string :=
  dom comp ∖ dom baseline.

(** [baseline.keys() - comp.keys()]. *)
Definition missing_keys {V} (baseline comp : gmap string V) : gset string :=
  dom baseline ∖ dom comp.

(** The loop [for mac in sorted(macs): print(.. mac .. aps[mac]['ssid'])]. *)
Definition ap_listing (aps : gmap string ap) (macs : gset string)
  : option (list line) :=
  mapM (λ mac, a ← aps !! mac; Some (ApEntry mac (ssid a))) (sorted macs).

(** The loop [for mac in sorted(macs): print(.. mac ..)]. *)
Definition client_listing (macs : gset string) : list line :=
  ClientEntry <$> sorted macs.

Definition report_new_and_missing
    (baseline_aps comp_aps : gmap string ap)
    (baseline_clients comp_clients : gmap string client)
  : option (list line) :=
  let new_aps := new_keys baseline_aps comp_aps in
  let missing_aps := missing_keys baseline_aps comp_aps in
  let new_clients := new_keys baseline_clients comp_clients in
  let missing_clients := missing_keys baseline_clients comp_clients in
  new_lines ← ap_listing comp_aps new_aps;
  missing_lines ← ap_listing baseline_aps missing_aps;
  Some ([ApSectionHeader; NewApCount (size new_aps)] ++ new_lines
        ++ [MissingApCount (size missing_aps)] ++ missing_lines
        ++ [ClientSectionHeader; NewClientCount (size new_clients)]
        ++ client_listing new_clients
        ++ [MissingClientCount (size missing_clients)]
        ++ client_listing missing_clients).

Definition _get_ap_changes (base_ap comp_ap : ap) : list change :=
  let changes := [] in
  let changes :=
    if py_ne (ssid base_ap) (ssid comp_ap)
    then changes ++ [SsidChanged (ssid base_ap) (ssid comp_ap)]
    else changes in
  let changes :=
    if py_ne (channel base_ap) (channel comp_ap)
    then changes ++ [ChannelChanged (channel base_ap) (channel comp_ap)]
    else changes in
  let changes :=
    if bool_decide (crypt base_ap ≠ crypt comp_ap)
    then changes ++ [EncryptionChanged (crypt base_ap) (crypt comp_ap)]
    else changes in
  changes.

(** What one round of the loop of [_report_ap_changes] prints. *)
Definition ap_change_block (mac : string) (base_ap comp_ap : ap)
  : list line :=
  let changes := _get_ap_changes base_ap comp_ap in
  if bool_decide (changes ≠ [])
  then ApChanged mac (ssid base_ap) :: (ChangeLine <$> changes)
  else [].

Definition _report_ap_changes (baseline_aps comp_aps : gmap string ap)
  : option (list line) :=
  let common_aps := dom baseline_aps ∩ dom comp_aps in
  blocks ← mapM (λ mac,
                   base_ap ← baseline_aps !! mac;
                   comp_ap ← comp_aps !! mac;
                   Some (ap_change_block mac base_ap comp_ap))
                (sorted common_aps);
  Some (AnalyzingAps (size common_aps) :: concat blocks).

Definition _get_client_probe_changes (base_client comp_client : client)
  : gset string * gset string :=
  let added_probes := probed_ssids comp_client ∖ probed_ssids base_client in
  let removed_probes := probed_ssids base_client ∖ probed_ssids comp_client in
  (added_probes, removed_probes).

(** What one round of the loop of [_report_client_changes] prints. *)
Definition client_change_block (mac : string) (base_client comp_client : client)
  : list line :=
  let '(added_probes, removed_probes) :=
    _get_client_probe_changes base_client comp_client in
  if bool_decide (added_probes ≠ ∅) || bool_decide (removed_probes ≠ ∅)
  then
    ClientChanged mac
    :: (if bool_decide (added_probes ≠ ∅)
        then [StartedProbing (sorted added_probes)] else [])
    ++ (if bool_decide (removed_probes ≠ ∅)
        then [StoppedProbing (sorted removed_probes)] else [])
  else [].

Definition _report_client_changes
    (baseline_clients comp_clients : gmap string client)
  : option (list line) :=
  let common_clients := dom baseline_clients ∩ dom comp_clients in
  blocks ← mapM (λ mac,
                   base_client ← baseline_clients !! mac;
                   comp_client ← comp_clients !! mac;
                   Some (client_change_block mac base_client comp_client))
                (sorted common_clients);
  Some (AnalyzingClients (size common_clients) :: concat blocks).

Definition report_environmental_changes
    (baseline_aps comp_aps : gmap string ap)
    (baseline_clients comp_clients : gmap string client)
  : option (list line) :=
  ap_lines ← _report_ap_changes baseline_aps comp_aps;
  client_lines ← _report_client_changes baseline_clients comp_clients;
  Some ([Rule; ChangesHeader] ++ ap_lines ++ client_lines).

(** Both arguments are [defaultdict(set)]: [comp_probes[ssid]] cannot
    raise, and on a missing key it would give (and store) the empty set.
    The loop only asks for keys of [comp_probes]. *)
Definition report_probed_ssid_analysis
    (baseline_probes comp_probes : gmap string (gset string))
  : list line :=
  let newly_probed_ssids := new_keys baseline_probes comp_probes in
  let no_longer_probed_ssids := missing_keys baseline_probes comp_probes in
  [Rule; ProbedHeader; NewProbedCount (size newly_probed_ssids)]
  ++ ((λ ssid,
         let clients_probing := sorted (get_default (comp_probes !! ssid) ∅) in
         NewProbed ssid clients_probing)
      <$> sorted newly_probed_ssids)
  ++ [GoneProbedCount (size no_longer_probed_ssids)]
  ++ (GoneProbed <$> sorted no_longer_probed_ssids).

(** The analysis part of [main], on the two decoded logs. *)
Definition main (baseline comparison : list log_line) : option (list line) :=
  let b := parse_kismet_log baseline in
  let c := parse_kismet_log comparison in
  l1 ← report_new_and_missing (aps b) (aps c) (clients b) (clients c);
  l2 ← report_environmental_changes (aps b) (aps c) (clients b) (clients c);
  let l3 :=
    report_probed_ssid_analysis (probed_ssid_map b) (probed_ssid_map c) in
  Some (l1 ++ l2 ++ l3).

(** ** Vocabulary of the statements *)

(** [d] is a record [_process_device] files as access point [mac]. *)
Definition ap_record (mac : string) (d : device) : Prop :=
  kismet_device_base_macaddr d = Some mac ∧ mac ≠ "" ∧
  kismet_device_base_type d = Some "Wi-Fi AP".

(** [d] is a record [_process_device] files as client [mac]. *)
Definition client_record (mac : string) (d : device) : Prop :=
  kismet_device_base_macaddr d = Some mac ∧ mac ≠ "" ∧
  ∃ ty, kismet_device_base_type d = Some ty ∧ ty ≠ "Wi-Fi AP" ∧
        str_contains "Wi-Fi" ty = true.

(** The fields of an AP record, as they are stored. *)
Definition ap_of (d : device) : ap :=
  Ap (get_default (kismet_device_base_name d) (VStr "N/A"))
     (get_default (kismet_common_channel d) (VStr "N/A"))
     (py_str (get_default (dot11_network_crypt_set d) (VStr "Unknown"))).

(** The probed names of a client record. *)
Definition probes_of (d : device) : gset string :=
  list_to_set (get_default (dot11_client_probed_ssid_map d) []).

(** The probed-name index is the inverse multimap of the clients' probed
    names, empty names left out. *)
Definition index_is_inverse (t : tables) : Prop :=
  (∀ mac c n,
     clients t !! mac = Some c → n ∈ probed_ssids c → n ≠ "" →
     ∃ S, probed_ssid_map t !! n = Some S ∧ mac ∈ S) ∧
  (∀ n S mac,
     probed_ssid_map t !! n = Some S → mac ∈ S →
     ∃ c, clients t !! mac = Some c ∧ n ∈ probed_ssids c).

(** Every name a stored client probes for lists that client. *)
Definition listed (t : tables) : Prop :=
  ∀ mac c n,
    clients t !! mac = Some c → n ∈ probed_ssids c → n ≠ "" →
    mac ∈ get_default (probed_ssid_map t !! n) ∅.

(** No MAC has two client records in the log. *)
Definition client_once (lines : list log_line) : Prop :=
  ∀ i j d d' mac,
    lines !! i = Some (Some d) → lines !! j = Some (Some d') →
    client_record mac d → client_record mac d' → i = j.

(** Neither the SSID nor the channel of the entry is the float [nan],
    the one value that differs from itself under [!=]. *)
Definition nan_free (a : ap) : Prop :=
  ssid a ≠ VConst NaN ∧ channel a ≠ VConst NaN.

(** Diffing [I] against itself prints the headers and the counts alone,
    in all three sections. *)
Definition self_diff_is_empty (I : tables) : Prop :=
  report_new_and_missing (aps I) (aps I) (clients I) (clients I)
  = Some [ApSectionHeader; NewApCount 0; MissingApCount 0;
          ClientSectionHeader; NewClientCount 0; MissingClientCount 0] ∧
  _report_ap_changes (aps I) (aps I)
  = Some [AnalyzingAps (size (dom (aps I)))] ∧
  _report_client_changes (clients I) (clients I)
  = Some [AnalyzingClients (size (dom (clients I)))] ∧
  report_environmental_changes (aps I) (aps I) (clients I) (clients I)
  = Some [Rule; ChangesHeader; AnalyzingAps (size (dom (aps I)));
          AnalyzingClients (size (dom (clients I)))] ∧
  report_probed_ssid_analysis (probed_ssid_map I) (probed_ssid_map I)
  = [Rule; ProbedHeader; NewProbedCount 0; GoneProbedCount 0].

(** [l] lists the set [X] in ascending order, each element once. *)
Definition listing (X : gset string) (l : list string) : Prop :=
  StronglySorted str_le l ∧ NoDup l ∧ ∀ x, x ∈ l ↔ x ∈ X.

(** What [_report_client_changes] prints for a client with the sorted
    added names [added] and removed names [removed], one of them not
    empty. *)
Definition client_block (mac : string) (added removed : list string)
  : list line :=
  ClientChanged mac
  :: (if decide (added = []) then [] else [StartedProbing added])
  ++ (if decide (removed = []) then [] else [StoppedProbing removed]).

(** What [_report_ap_changes] prints for an access point with changes. *)
Definition ap_block (mac : string) (base_ap comp_ap : ap) : list line :=
  ApChanged mac (ssid base_ap)
  :: (ChangeLine <$> _get_ap_changes base_ap comp_ap).

(** ** Setup: strings, messages and the console *)

(** The characters a Rocq string cannot spell: the double quote and
    ESC. *)
Definition dq : string := String (Ascii.ascii_of_nat 34) "".
Definition esc : string := String (Ascii.ascii_of_nat 27) "".

Module Style.
Definition RESET : string := esc +:+ "[0m".
Definition BOLD : string := esc +:+ "[1m".
Definition RED : string := esc +:+ "[91m".
Definition GREEN : string := esc +:+ "[92m".
Definition YELLOW : string := esc +:+ "[93m".
Definition BLUE : string := esc +:+ "[94m".
End Style.

(** [s.endswith(suffix)]. *)
Fixpoint str_endswith (suffix s : string) : bool :=
  String.eqb s suffix ||
  match s with
  | EmptyString => false
  | String _ s' => str_endswith suffix s'
  end.

(** [s.replace(old, new)] for a non-empty [old]: the occurrences of
    [old] are found from the left and do not overlap.  [skip] counts the
    characters of a replaced occurrence still to pass over. *)
Fixpoint replace_go (old new : string) (skip : nat) (s : string) : string :=
  match s with
  | EmptyString => EmptyString
  | String c s' =>
      match skip with
      | S k => replace_go old new k s'
      | O =>
          if String.prefix old s
          then new +:+ replace_go old new (String.length old - 1) s'
          else String c (replace_go old new O s')
      end
  end.

Definition str_replace (old new s : string) : string := replace_go old new 0 s.

(** The two questions [run_conversion_prompt] asks with [input]. *)
Inductive question :=
  | UseExisting (json_file : string)
  | Proceed.

(** The [print] calls of [check_command_exists],
    [run_conversion_prompt], [parse_kismet_log] and [main], each with the
    values its f-string interpolates. *)
Inductive message :=
  | CommandNotFound (command : string)
  | InstallHint
  | FoundUtility (command : string)
  | NotKismetFile
  | UsingExisting (json_file : string)
  | NeedsCommand
  | ShowCommand (command : string)
  | RunningConversion (kismet_file : string)
  | ConversionDone (json_file : string)
  | ConversionError
  | ReturnCode (returncode : Z)
  | Stderr (text : string)
  | ConversionCancelled
  | JsonNotFound (file_path : string)
  | ProcessingHeader.

Definition render_question (q : question) : string :=
  match q with
  | UseExisting json_file =>
      Style.YELLOW +:+ "[?] Output file '" +:+ json_file
      +:+ "' already exists. Use it? (Y/n): " +:+ Style.RESET
  | Proceed =>
      Style.YELLOW +:+ "[?] Do you want to proceed? (Y/n): " +:+ Style.RESET
  end.

Definition render_message (m : message) : string :=
  match m with
  | CommandNotFound command =>
      Style.RED +:+ Style.BOLD +:+ "Error: Required command '" +:+ command
      +:+ "' not found in your PATH." +:+ Style.RESET
  | InstallHint =>
      "Please ensure the Kismet server tools are installed and accessible."
  | FoundUtility command =>
      Style.GREEN +:+ "[✓] Found required utility: " +:+ command
      +:+ Style.RESET
  | NotKismetFile =>
      Style.RED +:+ Style.BOLD
      +:+ "Error: Input file must be a .kismet log file." +:+ Style.RESET
  | UsingExisting json_file =>
      Style.GREEN +:+ "[*] Using existing file: " +:+ json_file
      +:+ Style.RESET
  | NeedsCommand =>
      nl +:+ Style.BLUE +:+ "The script needs to run the following command:"
      +:+ Style.RESET
  | ShowCommand command => "  " +:+ Style.BOLD +:+ command +:+ Style.RESET
  | RunningConversion kismet_file =>
      "[*] Running conversion for '" +:+ kismet_file +:+ "'..."
  | ConversionDone json_file =>
      Style.GREEN +:+ "[✓] Successfully created '" +:+ json_file +:+ "'"
      +:+ Style.RESET
  | ConversionError =>
      Style.RED +:+ Style.BOLD +:+ "Error during conversion!" +:+ Style.RESET
  | ReturnCode returncode => "  Return Code: " +:+ pretty returncode
  | Stderr text => "  Stderr: " +:+ text
  | ConversionCancelled =>
      Style.RED +:+ "Conversion cancelled by user. Exiting." +:+ Style.RESET
  | JsonNotFound file_path =>
      Style.RED +:+ "Error: JSON file not found at '" +:+ file_path
      +:+ "'. Conversion might have failed." +:+ Style.RESET
  | ProcessingHeader => nl +:+ "--- 🔍 Processing Kismet Logs ---"
  end.

(** What the program does that the outside sees, in order. *)
Inductive event :=
  | Printed (m : message)
  | Prompted (q : question)
  | Typed (reply : string)
  | Ran (command : string)
  | Reported (l : line).

Inductive exn := EOFError | KeyError | AttributeError.

(** How a call ends: it returns, [sys.exit(code)] ends the program, or
    an exception no handler catches does. *)
Inductive outcome (A : Type) :=
  | Returned (a : A)
  | Exited (code : Z)
  | Raised (e : exn).
Arguments Returned {A} a.
Arguments Exited {A} code.
Arguments Raised {A} e.

(** A computation at the console: from the lines still to be typed on
    standard input to the events, the lines left and the outcome. *)
Definition io (A : Type) : Type :=
  list string → list event * list string * outcome A.

Global Instance io_ret : MRet io := λ A a replies, ([], replies, Returned a).

Global Instance io_bind : MBind io := λ A B f m replies,
  match m replies with
  | (events, replies, Returned a) =>
      match f a replies with
      | (events', replies, o) => (events ++ events', replies, o)
      end
  | (events, replies, Exited code) => (events, replies, Exited code)
  | (events, replies, Raised e) => (events, replies, Raised e)
  end.

Definition print (m : message) : io () :=
  λ replies, ([Printed m], replies, Returned ()).

(** [input(prompt)]: the prompt is written, then a line is read;
    [EOFError] when standard input has ended. *)
Definition input (q : question) : io string :=
  λ replies,
    match replies with
    | reply :: replies => ([Prompted q; Typed reply], replies, Returned reply)
    | [] => ([Prompted q], [], Raised EOFError)
    end.

Definition sys_exit {A} (code : Z) : io A :=
  λ replies, ([], replies, Exited code).

Definition raise {A} (e : exn) : io A :=
  λ replies, ([], replies, Raised e).

(** [subprocess.run(command, shell=True, check=True, ...)], given how
    the command ends: [None] when it exits with 0, the return code and
    the captured standard error of the [CalledProcessError] otherwise. *)
Definition subprocess_run (command : string) (failure : option (Z * string))
  : io (option (Z * string)) :=
  λ replies, ([Ran command], replies, Returned failure).

(** The lines a report printed, or the [KeyError] of its subscript. *)
Definition report (lines : option (list line)) : io () :=
  λ replies,
    match lines with
    | Some lines => (Reported <$> lines, replies, Returned ())
    | None => ([], replies, Raised KeyError)
    end.

(** ** Setup: the functions *)

Section setup.

(** Python's [str.lower] and [str.strip]. *)
Variables py_lower py_strip : string → string.

(** [reply.lower().strip()] is [''] or ['y']. *)
Definition accepted (reply : string) : bool :=
  let answer := py_strip (py_lower reply) in
  bool_decide (answer = "") || bool_decide (answer = "y").

(** [found] is whether [shutil.which(command)] finds the command. *)
Definition check_command_exists (command : string) (found : bool) : io () :=
  if negb found then
    print (CommandNotFound command);;
    print InstallHint;;
    sys_exit 1
  else
    print (FoundUtility command).

Definition conversion_command (kismet_file json_file : string) : string :=
  "kismet_log_to_json --in " +:+ dq +:+ kismet_file +:+ dq
  +:+ " --out " +:+ dq +:+ json_file +:+ dq.

(** [json_exists] is what [os.path.exists(json_file)] answers and
    [failure] how the conversion command ends if it is run. *)
Definition run_conversion_prompt (kismet_file : string) (json_exists : bool)
    (failure : option (Z * string)) : io string :=
  if negb (str_endswith ".kismet" kismet_file) then
    print NotKismetFile;;
    sys_exit 1
  else
    let json_file := str_replace ".kismet" ".json" kismet_file in
    run_command ←
      (if json_exists then
         overwrite ← input (UseExisting json_file);
         if accepted overwrite then
           print (UsingExisting json_file);;
           mret false
         else mret true
       else mret true);
    (if run_command : bool then
       let command := conversion_command kismet_file json_file in
       print NeedsCommand;;
       print (ShowCommand command);;
       confirm ← input Proceed;
       if accepted confirm then
         print (RunningConversion kismet_file);;
         e ← subprocess_run command failure;
         match e with
         | None => print (ConversionDone json_file)
         | Some (returncode, stderr) =>
             print ConversionError;;
             print (ReturnCode returncode);;
             print (Stderr (py_strip stderr));;
             sys_exit 1
         end
       else
         print ConversionCancelled;;
         sys_exit 0
     else mret ());;
    mret json_file.

(** What [json.loads] makes of one line of a file: it raises
    [JSONDecodeError], or returns a dict, or returns another JSON value (a
    list, a number, a string, [null]), which has no [get]. *)
Inductive decoded :=
  | Undecodable
  | Object (d : device)
  | NotObject.

(** The line as [parse_kismet_log] goes on with it; none for a value that
    is no dict. *)
Definition as_log_line (l : decoded) : option log_line :=
  match l with
  | Undecodable => Some None
  | Object d => Some (Some d)
  | NotObject => None
  end.

(** [parse_kismet_log(file_path)] on the file system: [content] is
    [None] when [open] raises [FileNotFoundError], the lines of the file
    otherwise.  On a line that decodes to a value that is no dict,
    [device.get] raises [AttributeError]; neither [try] catches it, and
    the tables built so far are lost with it. *)
Definition parse_kismet_log_file (file_path : string)
    (content : option (list decoded)) : io tables :=
  match content with
  | Some lines =>
      match mapM as_log_line lines with
      | Some lines => mret (parse_kismet_log lines)
      | None => raise AttributeError
      end
  | None =>
      print (JsonNotFound file_path);;
      sys_exit 1
  end.

(** What the outside answers during one run of the program. *)
Record answers := Answers {
  tool_found : bool;
  baseline_json_exists : bool;
  baseline_failure : option (Z * string);
  comparison_json_exists : bool;
  comparison_failure : option (Z * string);
  baseline_content : option (list decoded);
  comparison_content : option (list decoded)
}.

(** [main()] from the point where [parse_args] has returned the two
    positional arguments. *)
Definition program (baseline_file comparison_file : string) (w : answers)
  : io () :=
  check_command_exists "kismet_log_to_json" (tool_found w);;
  baseline_json_path ←
    run_conversion_prompt baseline_file (baseline_json_exists w)
                          (baseline_failure w);
  comparison_json_path ←
    run_conversion_prompt comparison_file (comparison_json_exists w)
                          (comparison_failure w);
  print ProcessingHeader;;
  b ← parse_kismet_log_file baseline_json_path (baseline_content w);
  c ← parse_kismet_log_file comparison_json_path (comparison_content w);
  report (report_new_and_missing (aps b) (aps c) (clients b) (clients c));;
  report (report_environmental_changes (aps b) (aps c)
                                       (clients b) (clients c));;
  report (Some (report_probed_ssid_analysis (probed_ssid_map b)
                                            (probed_ssid_map c))).

End setup.

(** ** Vocabulary of the further statements *)

(** The test [_process_device] makes before it files [d] as an access
    point, as a boolean. *)
Definition is_ap_record (d : device) : bool :=
  negb (py_not (kismet_device_base_macaddr d))
  && bool_decide (kismet_device_base_type d = Some "Wi-Fi AP").

(** The test [_process_device] makes before it files [d] as a client. *)
Definition is_client_record (d : device) : bool :=
  negb (py_not (kismet_device_base_macaddr d))
  && match kismet_device_base_type d with
     | Some ty => bool_decide (ty ≠ "Wi-Fi AP") && str_contains "Wi-Fi" ty
     | None => false
     end.

(** The decoded lines of a log whose record passes [p]. *)
Definition records_where (p : device → bool) (lines : list log_line)
  : list log_line :=
  List.filter (λ l, match l with Some d => p d | None => false end) lines.

(** A change read from the comparison back to the baseline. *)
Definition swap_change (c : change) : change :=
  match c with
  | SsidChanged old new => SsidChanged new old
  | ChannelChanged old new => ChannelChanged new old
  | EncryptionChanged old new => EncryptionChanged new old
  end.

(** The first [k] characters of [s] are no dots. *)
Fixpoint no_dot (k : nat) (s : string) : Prop :=
  match k, s with
  | S k, String c s => c ≠ Ascii.ascii_of_nat 46 ∧ no_dot k s
  | _, _ => True
  end.

(** The commands run, the lines read and the report lines printed
    among the events, in order. *)
Definition ran (events : list event) : list string :=
  omap (λ e, match e with Ran command => Some command | _ => None end) events.

Definition typed (events : list event) : list string :=
  omap (λ e, match e with Typed reply => Some reply | _ => None end) events.

Definition reported (events : list event) : list line :=
  omap (λ e, match e with Reported l => Some l | _ => None end) events.

(** The name a line of the probed-name section is about. *)
Definition probed_line_name (l : line) : option string :=
  match l with
  | NewProbed name _ => Some name
  | GoneProbed name => Some name
  | _ => None
  end.

(** ** Sample logs *)

Definition dev_ap (mac : string) (name chan cs : option value) : device :=
  Device (Some mac) (Some "Wi-Fi AP") name chan cs None.

Definition dev_client (mac : string) (probes : list string) : device :=
  Device (Some mac) (Some "Wi-Fi Client") None None None (Some probes).

(** One client seen twice, probing for another name the second time. *)
Definition reseen_client_log : list log_line :=
  [Some (dev_client "CC:CC" ["A"]); Some (dev_client "CC:CC" ["B"])].

(** One client seen once. *)
Definition single_client_log : list log_line :=
  [Some (dev_ap "AA:AA" (Some (VStr "Cafe")) (Some (VStr "6")) (Some (VInt 3)));
   None;
   Some (dev_client "BB:BB" ["Home"; ""])].

(** One access point seen twice under two names. *)
Definition cafe : device :=
  dev_ap "AA:AA" (Some (VStr "Cafe")) (Some (VStr "6")) (Some (VInt 3)).
Definition cafe2 : device :=
  dev_ap "AA:AA" (Some (VStr "Cafe2")) (Some (VStr "6")) (Some (VInt 3)).

(** One access point whose channel is the JSON constant [NaN]. *)
Definition nan_channel_log : list log_line :=
  [Some (dev_ap "AA:AA" (Some (VStr "Cafe")) (Some (VConst NaN))
                (Some (VInt 3)))].

(** An access point record with no name, channel or encryption. *)
Definition bare_ap : device := dev_ap "CC:CC" None None None.

(** A record whose MAC address is the empty string. *)
Definition empty_mac : device :=
  Device (Some "") (Some "Wi-Fi AP") (Some (VStr "Cafe")) None None None.

(** A stand-in for [str.lower] and [str.strip] on replies that are
    already in lower case and bare. *)
Definition unchanged (s : string) : string := s.

(** What the outside answers in a run where the tool is found, the
    baseline JSON file exists and the comparison log is converted. *)
Definition sample_answers : answers :=
  Answers true true None false None
          (Some [Object cafe; Undecodable;
                 Object (dev_client "BB:BB" ["Home"; ""])])
          (Some [Object (dev_client "CC:CC" ["A"]);
                 Object (dev_client "CC:CC" ["B"])]).

(** * Properties *)

(** ** The order of [sorted] *)

Section string_order.

Lemma ascii_compare_refl (a : Ascii.ascii) : Ascii.compare a a = Eq.
Proof. unfold Ascii.compare. apply N.compare_refl. Qed.

Lemma ascii_compare_lt_trans (a b c : Ascii.ascii) :
  Ascii.compare a b = Lt → Ascii.compare b c = Lt → Ascii.compare a c = Lt.
Proof.
  unfold Ascii.compare. rewrite !N.compare_lt_iff. apply N.lt_trans.
Qed.

Lemma string_compare_lt_trans (s t u : string) :
  String.compare s t = Lt → String.compare t u = Lt →
  String.compare s u = Lt.
Proof.
  revert t u. induction s as [|a s IH]; intros [|b t] [|c u]; simpl;
    try done.
  destruct (Ascii.compare a b) eqn:Hab; try done;
    destruct (Ascii.compare b c) eqn:Hbc; try done; intros Hst Htu.
  - apply Ascii.compare_eq_iff in Hab, Hbc. subst.
    rewrite ascii_compare_refl. eauto.
  - apply Ascii.compare_eq_iff in Hab. subst. by rewrite Hbc.
  - apply Ascii.compare_eq_iff in Hbc. subst. by rewrite Hab.
  - by rewrite (ascii_compare_lt_trans a b c).
Qed.

Lemma str_le_alt (s t : string) :
  str_le s t ↔ s = t ∨ String.compare s t = Lt.
Proof.
  unfold str_le, String.leb. split.
  - destruct (String.compare s t) eqn:Hc; try done; intros _.
    + left. by apply String.compare_eq_iff.
    + by right.
  - intros [->| ->]; [|done].
    replace (String.compare t t) with Eq; [done|].
    induction t as [|a t IH]; simpl; [done|].
    by rewrite ascii_compare_refl.
Qed.

Global Instance str_le_refl : Reflexive str_le.
Proof. intros s. apply str_le_alt. by left. Qed.

Global Instance str_le_trans : Transitive str_le.
Proof.
  intros s t u. rewrite !str_le_alt. intros [->|Hst] [->|Htu]; auto.
  right. by eapply string_compare_lt_trans.
Qed.

Global Instance str_le_total : Total str_le.
Proof. intros s t. apply String.leb_total. Qed.

Global Instance str_le_antisym : AntiSymm (=) str_le.
Proof. intros s t. apply String.leb_antisym. Qed.

End string_order.

(** ** [sorted] *)

Section sorted_facts.

Implicit Types X Y : gset string.

Lemma sorted_perm X : sorted X ≡ₚ elements X.
Proof. apply merge_sort_Permutation. Qed.

Lemma elem_of_sorted X x : x ∈ sorted X ↔ x ∈ X.
Proof. by rewrite sorted_perm, elem_of_elements. Qed.

Lemma NoDup_sorted X : NoDup (sorted X).
Proof. rewrite sorted_perm. apply NoDup_elements. Qed.

Lemma StronglySorted_sorted X : StronglySorted str_le (sorted X).
Proof. apply (StronglySorted_merge_sort _). Qed.

Lemma length_sorted X : length (sorted X) = size X.
Proof. by rewrite sorted_perm. Qed.

Lemma list_to_set_sorted X : list_to_set (sorted X) = X.
Proof. apply set_eq. intros x. by rewrite elem_of_list_to_set, elem_of_sorted. Qed.

Lemma sorted_empty : sorted ∅ = [].
Proof. unfold sorted. by rewrite elements_empty. Qed.

(** [sorted X] is the one duplicate-free ascending list of [X]. *)
Lemma sorted_unique X (l : list string) :
  StronglySorted str_le l → NoDup l → (∀ x, x ∈ l ↔ x ∈ X) → l = sorted X.
Proof.
  intros Hs Hn Hl. apply (StronglySorted_unique str_le); [done| |].
  - apply StronglySorted_sorted.
  - apply NoDup_Permutation; [done|apply NoDup_sorted|].
    intros x. by rewrite Hl, elem_of_sorted.
Qed.

End sorted_facts.

(** ** [_process_device] by cases *)

Section process_device.

Implicit Types (d : device) (t : tables) (mac n : string).

Lemma ap_record_not_client mac mac' d : ap_record mac d → ¬ client_record mac' d.
Proof. intros (_ & _ & Hty) (_ & _ & ty & Hty' & Hne & _). congruence. Qed.

Lemma record_mac_inj_ap mac mac' d : ap_record mac d → ap_record mac' d → mac = mac'.
Proof. intros (H1 & _) (H2 & _). congruence. Qed.

Lemma record_mac_inj_client mac mac' d :
  client_record mac d → client_record mac' d → mac = mac'.
Proof. intros (H1 & _) (H2 & _). congruence. Qed.

Lemma process_ap d t mac :
  ap_record mac d →
  _process_device d t
  = Tables (<[mac := ap_of d]> (aps t)) (clients t) (probed_ssid_map t).
Proof.
  intros (Hm & Hne & Hty). unfold _process_device, ap_of.
  rewrite Hm, Hty. simpl. by rewrite bool_decide_eq_false_2.
Qed.

Lemma process_client d t mac :
  client_record mac d →
  _process_device d t
  = Tables (aps t) (<[mac := Client (probes_of d)]> (clients t))
           (index_probes mac (probes_of d) (probed_ssid_map t)).
Proof.
  intros (Hm & Hne & ty & Hty & Hap & Hwifi). unfold _process_device, probes_of.
  rewrite Hm, Hty. simpl. rewrite (bool_decide_eq_false_2 (mac = "")) by done.
  assert (ty ≠ "") as Hty0 by (intros ->; done).
  rewrite (bool_decide_eq_false_2 (ty = "")) by done. simpl.
  rewrite (bool_decide_eq_false_2 (ty = "Wi-Fi AP")) by done.
  by rewrite Hwifi, bool_decide_eq_true_2.
Qed.

Lemma process_other d t :
  (∀ mac, ¬ ap_record mac d) → (∀ mac, ¬ client_record mac d) →
  _process_device d t = t.
Proof.
  intros Hap Hcl. unfold _process_device.
  destruct (kismet_device_base_macaddr d) as [mac|] eqn:Hm; [|done].
  destruct (kismet_device_base_type d) as [ty|] eqn:Hty;
    [|by rewrite orb_true_r].
  simpl. case_bool_decide as Hmac; [done|].
  case_bool_decide as Hty0; [done|]. simpl.
  case_bool_decide as Htap.
  { subst ty. by destruct (Hap mac). }
  destruct (str_contains "Wi-Fi" ty) eqn:Hwifi; [|done].
  destruct (Hcl mac). repeat split; [done..|]. by exists ty.
Qed.

(** The three ways a record is handled. *)
Lemma process_device_cases d t :
  (∃ mac, ap_record mac d) ∨ (∃ mac, client_record mac d) ∨
  ((∀ mac, ¬ ap_record mac d) ∧ (∀ mac, ¬ client_record mac d)).
Proof.
  destruct (kismet_device_base_macaddr d) as [mac|] eqn:Hm; last first.
  { right; right. split; intros mac (? & _); congruence. }
  destruct (kismet_device_base_type d) as [ty|] eqn:Hty; last first.
  { right; right. split; [intros ? (_ & _ & ?)|intros ? (_ & _ & ? & ? & _)];
      congruence. }
  destruct (decide (mac = "")) as [->|Hmac].
  { right; right. split; intros mac (? & ? & _); congruence. }
  destruct (decide (ty = "Wi-Fi AP")) as [->|Htap]; [by left; exists mac|].
  destruct (str_contains "Wi-Fi" ty) eqn:Hwifi.
  - right; left. exists mac. repeat split; [done..|]. by exists ty.
  - right; right. split; [intros ? (_ & _ & ?); congruence|].
    intros ? (_ & _ & ty' & ? & _ & ?). congruence.
Qed.

End process_device.

(** ** The access-point table *)

Section aps_table.

Implicit Types (d : device) (t : tables) (mac : string).

Lemma aps_step_ap d t mac :
  ap_record mac d → aps (_process_device d t) !! mac = Some (ap_of d).
Proof. intros H. rewrite (process_ap d t mac H). simpl. apply lookup_insert_eq. Qed.

Lemma aps_step_other d t mac :
  ¬ ap_record mac d → aps (_process_device d t) !! mac = aps t !! mac.
Proof.
  intros Hno. destruct (process_device_cases d t) as [[m H]|[[m H]|[H1 H2]]].
  - rewrite (process_ap d t m H). simpl. apply lookup_insert_ne.
    intros ->. by apply Hno.
  - by rewrite (process_client d t m H).
  - by rewrite process_other.
Qed.

Lemma aps_foldl_other (post : list log_line) t mac :
  (∀ d, Some d ∈ post → ¬ ap_record mac d) →
  aps (foldl parse_step t post) !! mac = aps t !! mac.
Proof.
  revert t. induction post as [|[d|] post IH]; intros t Hpost; simpl.
  - done.
  - rewrite IH by (intros; apply Hpost; by right).
    apply aps_step_other, Hpost. by left.
  - apply IH. intros; apply Hpost; by right.
Qed.

(** The last AP record of a MAC decides the entry. *)
Lemma aps_last_write (pre post : list log_line) d mac :
  ap_record mac d →
  (∀ d', Some d' ∈ post → ¬ ap_record mac d') →
  aps (parse_kismet_log (pre ++ Some d :: post)) !! mac = Some (ap_of d).
Proof.
  intros Hd Hpost. unfold parse_kismet_log. rewrite foldl_app. simpl.
  rewrite aps_foldl_other by done. by apply aps_step_ap.
Qed.

End aps_table.

(** ** The probed-name index *)

Section index.

Implicit Types (d : device) (t : tables) (mac n : string).
Implicit Types (m : gmap string (gset string)) (X : gset string).

Lemma index_probes_lookup mac X m n :
  index_probes mac X m !! n
  = if decide (n ∈ X ∧ n ≠ "")
    then Some (get_default (m !! n) ∅ ∪ {[mac]})
    else m !! n.
Proof.
  unfold index_probes. revert n.
  pose (P := λ (acc : gmap string (gset string)) (Y : gset string),
          ∀ n, acc !! n
               = if decide (n ∈ Y ∧ n ≠ "")
                 then Some (get_default (m !! n) ∅ ∪ {[mac]}) else m !! n).
  apply (set_fold_ind_L P); unfold P; clear P.
  - intros n. rewrite decide_False; [done|]. intros [[]%not_elem_of_empty _].
  - intros x Y acc Hx IH n.
    assert (∀ k, k ≠ x ∨ x = "" →
              (k ∈ ({[x]} : gset string) ∪ Y ∧ k ≠ "") ↔ (k ∈ Y ∧ k ≠ ""))
      as Hother.
    { intros k Hk. rewrite elem_of_union, elem_of_singleton.
      destruct Hk; [tauto|]. split; [|tauto]. intros [[->|?] ?]; tauto. }
    case_bool_decide as Hx0.
    + unfold add_probe. destruct (decide (x = n)) as [->|Hxn].
      * rewrite lookup_insert_eq, IH, decide_False by tauto.
        rewrite decide_True; [done|]. split; [|done].
        apply elem_of_union. left. by apply elem_of_singleton.
      * rewrite lookup_insert_ne, IH by done.
        apply decide_ext. symmetry. apply Hother. left. congruence.
    + assert (x = "") as Hx1 by (by destruct (decide (x = ""))).
      rewrite IH. apply decide_ext. symmetry. apply Hother. by right.
Qed.

(** Who is listed under [n] after one more record. *)
Lemma index_step d t n mac :
  mac ∈ get_default (probed_ssid_map (_process_device d t) !! n) ∅
  ↔ mac ∈ get_default (probed_ssid_map t !! n) ∅
    ∨ (client_record mac d ∧ n ∈ probes_of d ∧ n ≠ "").
Proof.
  destruct (process_device_cases d t) as [[m H]|[[m H]|[H1 H2]]].
  - rewrite (process_ap d t m H). simpl. split; [by left|].
    intros [?|[Hc _]]; [done|]. by destruct (ap_record_not_client m mac d).
  - rewrite (process_client d t m H). simpl. rewrite index_probes_lookup.
    case_decide as Hn.
    + simpl. rewrite elem_of_union, elem_of_singleton. split.
      * intros [?| ->]; [by left|]. right. by destruct Hn.
      * intros [?|[Hc _]]; [by left|]. right.
        by apply (record_mac_inj_client mac m d).
    + split; [by left|]. intros [?|(Hc & ? & ?)]; [done|]. by destruct Hn.
  - rewrite process_other by done. split; [by left|].
    intros [?|[Hc _]]; [done|]. by destruct (H2 mac).
Qed.

(** No key of the index has an empty set. *)
Lemma index_step_nonempty d t :
  (∀ n S, probed_ssid_map t !! n = Some S → S ≠ ∅) →
  ∀ n S, probed_ssid_map (_process_device d t) !! n = Some S → S ≠ ∅.
Proof.
  intros Ht. destruct (process_device_cases d t) as [[m H]|[[m H]|[H1 H2]]].
  - by rewrite (process_ap d t m H).
  - rewrite (process_client d t m H). simpl. intros n S.
    rewrite index_probes_lookup. case_decide; [|by apply Ht].
    intros [= <-] Hempty. apply (not_elem_of_empty (C:=gset string) m).
    rewrite <- Hempty. apply elem_of_union. right. by apply elem_of_singleton.
  - by rewrite process_other.
Qed.

(** The index after a whole log: the clients listed under [n] are those
    with a client record, anywhere in the log, that probes for [n]. *)
Lemma index_foldl (lines : list log_line) t n mac :
  mac ∈ get_default (probed_ssid_map (foldl parse_step t lines) !! n) ∅
  ↔ mac ∈ get_default (probed_ssid_map t !! n) ∅
    ∨ ∃ d, Some d ∈ lines ∧ client_record mac d ∧ n ∈ probes_of d ∧ n ≠ "".
Proof.
  revert t. induction lines as [|[d|] lines IH]; intros t; simpl.
  - split; [by left|]. intros [?|(d & Hd & _)]; [done|]. by inversion Hd.
  - rewrite IH, index_step. split.
    + intros [[?|?]|(d' & ? & ?)]; [by left| |].
      * right. exists d. split; [by left|done].
      * right. exists d'. split; [by right|done].
    + intros [?|(d' & Hd' & ?)]; [by left; left|].
      apply elem_of_cons in Hd' as [[= ->]|?]; [by left; right|].
      right. by exists d'.
  - rewrite IH. split.
    + intros [?|(d' & ? & ?)]; [by left|]. right. exists d'.
      split; [by right|done].
    + intros [?|(d' & Hd' & ?)]; [by left|].
      apply elem_of_cons in Hd' as [?|?]; [done|]. right. by exists d'.
Qed.

Lemma index_foldl_nonempty (lines : list log_line) t :
  (∀ n S, probed_ssid_map t !! n = Some S → S ≠ ∅) →
  ∀ n S, probed_ssid_map (foldl parse_step t lines) !! n = Some S → S ≠ ∅.
Proof.
  revert t. induction lines as [|[d|] lines IH]; intros t Ht; simpl; [done| |].
  - apply IH. by apply index_step_nonempty.
  - by apply IH.
Qed.

End index.

(** ** The client table against the index *)

Section clients_table.

Implicit Types (d : device) (t : tables) (mac n : string).

Lemma elem_of_get_default (o : option (gset string)) mac :
  mac ∈ get_default o ∅ ↔ ∃ S, o = Some S ∧ mac ∈ S.
Proof.
  destruct o as [S|]; simpl.
  - split; [by exists S|]. by intros (? & [= <-] & ?).
  - split; [by intros ?%not_elem_of_empty|]. by intros (? & ? & ?).
Qed.

Lemma clients_step_client d t mac :
  client_record mac d →
  clients (_process_device d t) !! mac = Some (Client (probes_of d)).
Proof.
  intros H. rewrite (process_client d t mac H). simpl. apply lookup_insert_eq.
Qed.

Lemma clients_step_other d t mac :
  ¬ client_record mac d →
  clients (_process_device d t) !! mac = clients t !! mac.
Proof.
  intros Hno. destruct (process_device_cases d t) as [[m H]|[[m H]|[H1 H2]]].
  - by rewrite (process_ap d t m H).
  - rewrite (process_client d t m H). simpl. apply lookup_insert_ne.
    intros ->. by apply Hno.
  - by rewrite process_other.
Qed.

Lemma clients_foldl_other (post : list log_line) t mac :
  (∀ d, Some d ∈ post → ¬ client_record mac d) →
  clients (foldl parse_step t post) !! mac = clients t !! mac.
Proof.
  revert t. induction post as [|[d|] post IH]; intros t Hpost; simpl.
  - done.
  - rewrite IH by (intros; apply Hpost; by right).
    apply clients_step_other, Hpost. by left.
  - apply IH. intros; apply Hpost; by right.
Qed.

(** The last client record of a MAC decides the entry. *)
Lemma clients_last_write (pre post : list log_line) d mac :
  client_record mac d →
  (∀ d', Some d' ∈ post → ¬ client_record mac d') →
  clients (parse_kismet_log (pre ++ Some d :: post)) !! mac
  = Some (Client (probes_of d)).
Proof.
  intros Hd Hpost. unfold parse_kismet_log. rewrite foldl_app. simpl.
  rewrite clients_foldl_other by done. by apply clients_step_client.
Qed.

Lemma listed_step d t : listed t → listed (_process_device d t).
Proof.
  intros Ht mac c n Hc Hn Hn0. apply index_step.
  destruct (process_device_cases d t) as [[m H]|[[m H]|[H1 H2]]].
  - rewrite (process_ap d t m H) in Hc. left. by eapply Ht.
  - rewrite (process_client d t m H) in Hc. simpl in Hc.
    destruct (decide (m = mac)) as [->|Hne].
    + rewrite lookup_insert_eq in Hc. injection Hc as <-. by right.
    + rewrite lookup_insert_ne in Hc by done. left. by eapply Ht.
  - rewrite process_other in Hc by done. left. by eapply Ht.
Qed.

Lemma listed_foldl (lines : list log_line) t :
  listed t → listed (foldl parse_step t lines).
Proof.
  revert t. induction lines as [|[d|] lines IH]; intros t Ht; simpl; [done| |].
  - apply IH. by apply listed_step.
  - by apply IH.
Qed.

Lemma listed_empty : listed empty_tables.
Proof. intros mac c n Hc. simpl in Hc. by rewrite lookup_empty in Hc. Qed.

End clients_table.

(** ** The inventory builder: statements *)

Lemma ap_record_dev_ap mac name chan cs :
  mac ≠ "" → ap_record mac (dev_ap mac name chan cs).
Proof. by intros; repeat split. Qed.

Lemma client_record_dev_client mac probes :
  mac ≠ "" → client_record mac (dev_client mac probes).
Proof. intros; repeat split; [done|]. by exists "Wi-Fi Client". Qed.

(** C1, as the code has it.  After [parse_kismet_log], every client with
    a non-empty name [n] among its stored probed names is listed under
    [n] in the index; the clients listed under a key [n] of the index are
    exactly those with some client record in the log, not only the last
    one of their MAC, that probes for [n], and [n] is not empty; and when
    no MAC has two client records the index is the inverse multimap of the
    stored probed names. *)
Theorem probed_index_accumulates (lines : list log_line) :
  let t := parse_kismet_log lines in
  (∀ mac c n,
     clients t !! mac = Some c → n ∈ probed_ssids c → n ≠ "" →
     ∃ S, probed_ssid_map t !! n = Some S ∧ mac ∈ S) ∧
  (∀ n S,
     probed_ssid_map t !! n = Some S →
     n ≠ "" ∧ S ≠ ∅ ∧
     ∀ mac, mac ∈ S ↔
            ∃ d, Some d ∈ lines ∧ client_record mac d ∧ n ∈ probes_of d) ∧
  (client_once lines → index_is_inverse t).
Proof.
  intros t.
  assert (∀ n mac, mac ∈ get_default (probed_ssid_map t !! n) ∅ ↔
            ∃ d, Some d ∈ lines ∧ client_record mac d ∧ n ∈ probes_of d
                 ∧ n ≠ "") as Hidx.
  { intros n mac. unfold t, parse_kismet_log. rewrite index_foldl. simpl.
    rewrite lookup_empty. simpl. split; [|by right].
    by intros [?%not_elem_of_empty|?]. }
  assert (∀ mac c n,
            clients t !! mac = Some c → n ∈ probed_ssids c → n ≠ "" →
            ∃ S, probed_ssid_map t !! n = Some S ∧ mac ∈ S) as Hfwd.
  { intros mac c n Hc Hn Hn0. apply elem_of_get_default.
    by apply (listed_foldl lines empty_tables listed_empty mac c n). }
  split; [done|]. split.
  - intros n S HS.
    assert (S ≠ ∅) as Hne.
    { apply (index_foldl_nonempty lines empty_tables) with n; [|done].
      intros n' S'. simpl. by rewrite lookup_empty. }
    assert (∀ mac, mac ∈ S ↔ mac ∈ get_default (probed_ssid_map t !! n) ∅)
      as HSn by (by rewrite HS).
    split; [|split; [done|]].
    + apply set_choose_L in Hne as [mac Hmac].
      apply HSn, Hidx in Hmac as (_ & _ & _ & _ & ?). done.
    + intros mac. rewrite HSn, Hidx. split.
      * intros (d & ? & ? & ? & _). by exists d.
      * intros (d & ? & ? & ?). exists d. do 3 (split; [done|]).
        intros ->. apply set_choose_L in Hne as [mac' Hmac'].
        by apply HSn, Hidx in Hmac' as (_ & _ & _ & _ & ?).
  - intros Honce. split; [done|]. intros n X mac HS Hmac.
    assert (mac ∈ get_default (probed_ssid_map t !! n) ∅) as Hin
      by (by rewrite HS).
    apply Hidx in Hin as (d & Hd & Hrec & Hn & _).
    apply list_elem_of_split in Hd as (pre & post & ->).
    exists (Client (probes_of d)). split; [|done].
    apply clients_last_write; [done|].
    intros d' Hd' Hrec'. apply list_elem_of_lookup in Hd' as [k Hk].
    assert (length pre = length pre + S k) as Heq; [|lia].
    apply (Honce _ _ d d' mac); [| |done..].
    + by rewrite list_lookup_middle.
    + rewrite lookup_app_r by lia.
      by replace (length pre + S k - length pre) with (S k) by lia.
Qed.

Lemma client_once_single : client_once single_client_log.
Proof.
  intros [|[|[|i]]] [|[|[|j]]] d d' mac; simpl; try done;
    intros [= <-] [= <-] Hd Hd';
    try (by destruct (ap_record_not_client "AA:AA" mac cafe);
           [apply ap_record_dev_ap|]).
Qed.

Lemma probed_index_accumulates_witness :
  index_is_inverse (parse_kismet_log single_client_log) ∧
  ∃ S, probed_ssid_map (parse_kismet_log reseen_client_log) !! "B" = Some S
       ∧ "CC:CC" ∈ S.
Proof.
  split.
  - apply (probed_index_accumulates single_client_log), client_once_single.
  - apply (proj1 (probed_index_accumulates reseen_client_log)
             "CC:CC" (Client {["B"]}) "B"); [reflexivity| |done].
    vm_compute. reflexivity.
Defined.

(** C1 as stated fails: after a log in which client CC:CC first probes
    for A and later for B, the index still lists CC:CC under A while the
    stored probed names of CC:CC are B alone. *)
Lemma index_not_inverse_reseen :
  ¬ index_is_inverse (parse_kismet_log reseen_client_log).
Proof.
  intros [_ Hback].
  destruct (Hback "A" {["CC:CC"]} "CC:CC") as (c & Hc & Hn).
  - reflexivity.
  - by apply elem_of_singleton.
  - assert (clients (parse_kismet_log reseen_client_log) !! "CC:CC"
            = Some (Client {["B"]})) as Hstored by (vm_compute; reflexivity).
    rewrite Hstored in Hc. injection Hc as <-. simpl in Hn.
    by apply elem_of_singleton in Hn.
Qed.

(** C4.  Last write wins: when [d] is the last AP record of [mac] in the
    log, the entry of [mac] in the access-point table holds the fields of
    [d] ([ap_of d]: its name, channel and the text of its encryption set,
    with the defaults for absent fields), whatever the earlier records of
    that MAC held. *)
Theorem ap_last_write_wins (pre post : list log_line) (d : device)
    (mac : string) :
  ap_record mac d →
  (∀ d', Some d' ∈ post → ¬ ap_record mac d') →
  aps (parse_kismet_log (pre ++ Some d :: post)) !! mac = Some (ap_of d).
Proof. apply aps_last_write. Qed.

Lemma ap_last_write_wins_witness :
  aps (parse_kismet_log [Some cafe; Some cafe2]) !! "AA:AA"
  = Some (Ap (VStr "Cafe2") (VStr "6") "3").
Proof.
  apply (ap_last_write_wins [Some cafe] [] cafe2 "AA:AA").
  - by apply ap_record_dev_ap.
  - intros d' Hd'. by apply elem_of_nil in Hd'.
Defined.

(** C9.  An AP record with no name, channel or encryption set is stored
    with the marker N/A, N/A or Unknown in the place of the absent field:
    when [d] is the last AP record of [mac], the entry of [mac] exists and
    has the marker for every field absent from [d]. *)
Theorem ap_absent_fields_default (pre post : list log_line) (d : device)
    (mac : string) :
  ap_record mac d →
  (∀ d', Some d' ∈ post → ¬ ap_record mac d') →
  ∃ a, aps (parse_kismet_log (pre ++ Some d :: post)) !! mac = Some a ∧
       (kismet_device_base_name d = None → ssid a = VStr "N/A") ∧
       (kismet_common_channel d = None → channel a = VStr "N/A") ∧
       (dot11_network_crypt_set d = None → crypt a = "Unknown").
Proof.
  intros Hd Hpost. exists (ap_of d). split; [by apply aps_last_write|].
  unfold ap_of. simpl. by repeat split; intros ->.
Qed.

Lemma ap_absent_fields_default_witness :
  ∃ a, aps (parse_kismet_log [Some cafe; Some bare_ap; None]) !! "CC:CC"
       = Some a ∧
       ssid a = VStr "N/A" ∧ channel a = VStr "N/A" ∧ crypt a = "Unknown".
Proof.
  destruct (ap_absent_fields_default [Some cafe] [None] bare_ap "CC:CC")
    as (a & Ha & Hs & Hc & Hk).
  - by apply ap_record_dev_ap.
  - intros d' Hd'. apply elem_of_cons in Hd' as [Hd'|Hd']; [done|].
    by apply elem_of_nil in Hd'.
  - exists a. split; [exact Ha|]. split; [by apply Hs|].
    split; [by apply Hc|by apply Hk].
Defined.

(** A record with the MAC address or the device type absent is dropped. *)
Lemma process_missing (d : device) (t : tables) :
  kismet_device_base_macaddr d = None ∨ kismet_device_base_type d = None →
  _process_device d t = t.
Proof.
  intros [H|H]; unfold _process_device; rewrite H; [done|].
  simpl. by rewrite orb_true_r.
Qed.

(** C10.  A record whose MAC address or device type is the empty string
    is dropped as one without the field is: [_process_device] returns the
    three tables as they were, and the log without the record builds the
    same tables. *)
Theorem process_empty_field_dropped (d : device) :
  kismet_device_base_macaddr d = Some "" ∨
  kismet_device_base_type d = Some "" →
  (∀ t, _process_device d t = t) ∧
  (∀ pre post,
     parse_kismet_log (pre ++ Some d :: post) = parse_kismet_log (pre ++ post)).
Proof.
  intros Hd.
  assert (∀ t, _process_device d t = t) as Hdrop.
  { intros t. apply process_other.
    - intros mac (Hm & Hne & Hty). destruct Hd; congruence.
    - intros mac (Hm & Hne & ty & Hty & _ & Hwifi).
      destruct Hd as [Hd|Hd]; [congruence|].
      rewrite Hd in Hty. by injection Hty as <-. }
  split; [done|]. intros pre post. unfold parse_kismet_log.
  rewrite !foldl_app. simpl. by rewrite Hdrop.
Qed.

Lemma process_empty_field_dropped_witness :
  _process_device empty_mac (parse_kismet_log single_client_log)
  = parse_kismet_log single_client_log ∧
  parse_kismet_log ([Some cafe] ++ Some empty_mac :: [Some cafe2])
  = parse_kismet_log ([Some cafe] ++ [Some cafe2]).
Proof.
  destruct (process_empty_field_dropped empty_mac) as [H1 H2].
  - by left.
  - split; [apply H1|apply H2].
Defined.

(** ** Listings *)

Section listings.

Implicit Types (X : gset string) (l ks : list string).

Lemma listing_sorted X : listing X (sorted X).
Proof.
  split; [apply StronglySorted_sorted|]. split; [apply NoDup_sorted|].
  intros x. apply elem_of_sorted.
Qed.

Lemma listing_unique X l : listing X l → l = sorted X.
Proof. intros (? & ? & ?). by apply sorted_unique. Qed.

Lemma listing_length X l : listing X l → length l = size X.
Proof. intros ->%listing_unique. apply length_sorted. Qed.

Lemma sorted_nil X : sorted X = [] ↔ X = ∅.
Proof.
  split; [|intros ->; apply sorted_empty].
  intros H. apply leibniz_equiv, size_empty_inv. by rewrite <- length_sorted, H.
Qed.

Lemma StronglySorted_sublist {A} (R : relation A) (k l : list A) :
  sublist k l → StronglySorted R l → StronglySorted R k.
Proof.
  induction 1 as [|x k l Hkl IH|x k l Hkl IH]; intros Hl.
  - constructor.
  - apply StronglySorted_inv in Hl as [Hl Hx]. constructor; [by apply IH|].
    apply Forall_forall. intros y Hy.
    apply (proj1 (Forall_forall _ _) Hx). by eapply elem_of_sublist.
  - apply StronglySorted_inv in Hl as [Hl _]. by apply IH.
Qed.

(** A loop over sorted keys that prints one line per key from [m[k]]. *)
Lemma mapM_lookup {V B} (m : gmap string V) (g : string → V → B) ks :
  (∀ k, k ∈ ks → is_Some (m !! k)) →
  ∃ kvs : list (string * V),
    mapM (λ k, v ← m !! k; Some (g k v)) ks = Some (uncurry g <$> kvs) ∧
    kvs.*1 = ks ∧
    Forall (λ kv, m !! kv.1 = Some kv.2) kvs.
Proof.
  induction ks as [|k ks IH]; intros Hks.
  - by exists [].
  - destruct IH as (kvs & Hm & Hk & Hv); [intros; apply Hks; by right|].
    destruct (Hks k) as [v Hkv]; [by left|].
    exists ((k, v) :: kvs). split; [|split].
    + simpl. rewrite Hkv. simpl. by rewrite Hm.
    + simpl. by f_equal.
    + by constructor.
Qed.

(** A loop over sorted common keys that prints a block of lines for the
    keys that pass the test [keep] and nothing for the others. *)
Lemma mapM_common {V} (mb mc : gmap string V) (keep : V → V → bool)
    (block : string → V → V → list line) ks :
  (∀ k, k ∈ ks → is_Some (mb !! k) ∧ is_Some (mc !! k)) →
  ∃ (blocks : list (list line)) (kept : list (string * V * V)),
    mapM (λ mac, b ← mb !! mac; c ← mc !! mac;
                 Some (if keep b c then block mac b c else [])) ks
    = Some blocks ∧
    concat blocks = kept ≫= (λ e, block e.1.1 e.1.2 e.2) ∧
    sublist kept.*1.*1 ks ∧
    ∀ mac b c, (mac, b, c) ∈ kept ↔
               mac ∈ ks ∧ mb !! mac = Some b ∧ mc !! mac = Some c
               ∧ keep b c = true.
Proof.
  induction ks as [|k ks IH]; intros Hks.
  - exists [], []. split; [done|]. split; [done|]. split; [constructor|].
    intros mac b c. split; [by intros ?%elem_of_nil|].
    by intros (?%elem_of_nil & _).
  - destruct IH as (blocks & kept & Hm & Hc & Hsub & Hin);
      [intros; apply Hks; by right|].
    destruct (Hks k) as [[b Hb] [c Hcc]]; [by left|].
    simpl. rewrite Hb, Hcc, Hm. simpl.
    destruct (keep b c) eqn:Hkeep.
    + exists (block k b c :: blocks), ((k, b, c) :: kept).
      split; [done|]. split; [simpl; by rewrite Hc|].
      split; [by constructor|].
      intros mac b' c'. rewrite !elem_of_cons, Hin. split.
      * intros [[= -> -> ->]|(? & ? & ? & ?)]; [by auto|]. by auto.
      * intros ([->|?] & Hb' & Hc' & ?); [|by auto]. left. congruence.
    + exists ([] :: blocks), kept.
      split; [done|]. split; [done|]. split; [by constructor|].
      intros mac b' c'. rewrite elem_of_cons, Hin. split.
      * intros (? & ? & ? & ?). by auto.
      * intros ([->|?] & Hb' & Hc' & ?); [congruence|by auto].
Qed.

End listings.

(** ** The membership diff *)

Section membership.

Lemma ap_listing_spec (m : gmap string ap) (X : gset string) :
  X ⊆ dom m →
  ∃ l : list (string * value),
    ap_listing m X = Some (uncurry ApEntry <$> l) ∧
    listing X l.*1 ∧
    Forall (λ e, ssid <$> m !! e.1 = Some e.2) l.
Proof.
  intros HX.
  destruct (mapM_lookup m (λ mac a, ApEntry mac (ssid a)) (sorted X))
    as (kvs & Hm & Hk & Hv).
  { intros k Hk%elem_of_sorted. by apply elem_of_dom, HX. }
  exists ((λ kv, (kv.1, ssid kv.2)) <$> kvs). split; [|split].
  - unfold ap_listing. rewrite Hm. f_equal.
    rewrite <- list_fmap_compose. by apply list_fmap_ext; intros i [k a].
  - rewrite <- list_fmap_compose.
    replace ((fst ∘ (λ kv : string * ap, (kv.1, ssid kv.2))) <$> kvs)
      with (kvs.*1) by (by apply list_fmap_ext; intros i [k a]).
    rewrite Hk. apply listing_sorted.
  - apply Forall_fmap. eapply Forall_impl; [exact Hv|].
    intros [k a] Hka. simpl in *. by rewrite Hka.
Qed.

Lemma client_listing_spec (X : gset string) :
  ∃ l, client_listing X = ClientEntry <$> l ∧ listing X l.
Proof. exists (sorted X). split; [done|apply listing_sorted]. Qed.

Lemma new_keys_subseteq {V} (baseline comp : gmap string V) :
  new_keys baseline comp ⊆ dom comp.
Proof. unfold new_keys. intros k [? _]%elem_of_difference. done. Qed.

Lemma missing_keys_subseteq {V} (baseline comp : gmap string V) :
  missing_keys baseline comp ⊆ dom baseline.
Proof. unfold missing_keys. intros k [? _]%elem_of_difference. done. Qed.

End membership.

(** C2.  [report_new_and_missing] never raises and prints, in this order:
    the new access points, those whose MAC is a key of the comparison table
    and not of the baseline table, in ascending order of MAC, each with the
    SSID the comparison table holds; the missing access points, the keys of
    the baseline table that the comparison table lacks, in ascending order,
    each with the SSID of the baseline table; the new clients and the
    missing clients, likewise by MAC; each list after its count. *)
Theorem membership_diff (baseline_aps comp_aps : gmap string ap)
    (baseline_clients comp_clients : gmap string client) :
  ∃ (new_aps missing_aps : list (string * value))
    (new_clients missing_clients : list string),
    report_new_and_missing baseline_aps comp_aps baseline_clients comp_clients
    = Some ([ApSectionHeader; NewApCount (length new_aps)]
            ++ (uncurry ApEntry <$> new_aps)
            ++ [MissingApCount (length missing_aps)]
            ++ (uncurry ApEntry <$> missing_aps)
            ++ [ClientSectionHeader; NewClientCount (length new_clients)]
            ++ (ClientEntry <$> new_clients)
            ++ [MissingClientCount (length missing_clients)]
            ++ (ClientEntry <$> missing_clients)) ∧
    listing (dom comp_aps ∖ dom baseline_aps) new_aps.*1 ∧
    Forall (λ e, ssid <$> comp_aps !! e.1 = Some e.2) new_aps ∧
    listing (dom baseline_aps ∖ dom comp_aps) missing_aps.*1 ∧
    Forall (λ e, ssid <$> baseline_aps !! e.1 = Some e.2) missing_aps ∧
    listing (dom comp_clients ∖ dom baseline_clients) new_clients ∧
    listing (dom baseline_clients ∖ dom comp_clients) missing_clients.
Proof.
  destruct (ap_listing_spec comp_aps (new_keys baseline_aps comp_aps))
    as (new_aps & Hnew & Hnl & Hns); [apply new_keys_subseteq|].
  destruct (ap_listing_spec baseline_aps (missing_keys baseline_aps comp_aps))
    as (missing_aps & Hmis & Hml & Hms); [apply missing_keys_subseteq|].
  exists new_aps, missing_aps,
    (sorted (new_keys baseline_clients comp_clients)),
    (sorted (missing_keys baseline_clients comp_clients)).
  split; [|split_and!; try done; apply listing_sorted].
  unfold report_new_and_missing. rewrite Hnew, Hmis. simpl.
  rewrite <- (length_fmap fst new_aps), <- (length_fmap fst missing_aps).
  rewrite (listing_length _ _ Hnl), (listing_length _ _ Hml).
  by rewrite !length_sorted.
Qed.

(** C7.  For the access points and for the clients of two inventories,
    no key is both new and missing, and the new keys from A to B are the
    missing keys from B to A; the lines listing them are the same. *)
Theorem membership_diff_symmetry (A_aps B_aps : gmap string ap)
    (A_clients B_clients : gmap string client) :
  new_keys A_aps B_aps ∩ missing_keys A_aps B_aps = ∅ ∧
  new_keys A_aps B_aps = missing_keys B_aps A_aps ∧
  new_keys A_clients B_clients ∩ missing_keys A_clients B_clients = ∅ ∧
  new_keys A_clients B_clients = missing_keys B_clients A_clients ∧
  ap_listing B_aps (new_keys A_aps B_aps)
  = ap_listing B_aps (missing_keys B_aps A_aps) ∧
  client_listing (new_keys A_clients B_clients)
  = client_listing (missing_keys B_clients A_clients).
Proof.
  assert (∀ V (A B : gmap string V), new_keys A B ∩ missing_keys A B = ∅)
    as Hdisj.
  { intros V A B. apply set_eq. intros k. unfold new_keys, missing_keys.
    rewrite elem_of_intersection, !elem_of_difference.
    split; [tauto|by intros ?%not_elem_of_empty]. }
  by split_and!.
Qed.

(** ** The probed-name diff *)

(** C6.  [report_probed_ssid_analysis] prints the newly probed names,
    the keys of the comparison index that the baseline index lacks, in
    ascending order, each with the ascending list of the client MACs the
    comparison index holds for it, and then the names no longer probed,
    the keys of the baseline index that the comparison index lacks, in
    ascending order; each list after its count. *)
Theorem probed_name_diff (baseline_probes comp_probes : gmap string (gset string)) :
  ∃ (newly : list (string * list string)) (gone : list string),
    report_probed_ssid_analysis baseline_probes comp_probes
    = [Rule; ProbedHeader; NewProbedCount (length newly)]
      ++ (uncurry NewProbed <$> newly)
      ++ [GoneProbedCount (length gone)]
      ++ (GoneProbed <$> gone) ∧
    listing (dom comp_probes ∖ dom baseline_probes) newly.*1 ∧
    Forall (λ e, ∃ macs, comp_probes !! e.1 = Some macs ∧ listing macs e.2)
           newly ∧
    listing (dom baseline_probes ∖ dom comp_probes) gone.
Proof.
  set (entry := λ ssid : string,
         (ssid, sorted (get_default (comp_probes !! ssid) ∅))).
  exists (entry <$> sorted (new_keys baseline_probes comp_probes)),
    (sorted (missing_keys baseline_probes comp_probes)).
  assert ((entry <$> sorted (new_keys baseline_probes comp_probes)).*1
          = sorted (new_keys baseline_probes comp_probes)) as Hkeys.
  { rewrite <- list_fmap_compose. apply list_fmap_id. }
  split_and!.
  - unfold report_probed_ssid_analysis.
    rewrite !length_fmap, !length_sorted. do 4 f_equal.
    by rewrite <- list_fmap_compose.
  - rewrite Hkeys. apply listing_sorted.
  - apply Forall_fmap, Forall_forall. intros ssid Hssid%elem_of_sorted.
    apply new_keys_subseteq, elem_of_dom in Hssid as [macs Hmacs].
    exists macs. split; [done|]. simpl. rewrite Hmacs. apply listing_sorted.
  - apply listing_sorted.
Qed.

(** ** The field-change diff *)

Section changes.

Lemma py_eqb_refl (v : value) : v ≠ VConst NaN → py_eqb v v = true.
Proof.
  destruct v as [| | | |[]]; simpl; intros Hv;
    by rewrite ?bool_decide_eq_true_2.
Qed.

Lemma py_ne_irrefl (v : value) : v ≠ VConst NaN → py_ne v v = false.
Proof. intros Hv. unfold py_ne. by rewrite py_eqb_refl. Qed.

Lemma py_ne_self (v : value) : py_ne v v = true ↔ v = VConst NaN.
Proof.
  split; [|by intros ->].
  intros Hne. destruct (decide (v = VConst NaN)) as [|Hv]; [done|].
  rewrite py_ne_irrefl in Hne by done. done.
Qed.

Lemma elem_of_when {A} (b : bool) (y x : A) :
  x ∈ (if b then [y] else []) ↔ x = y ∧ b = true.
Proof.
  destruct b; [rewrite list_elem_of_singleton|rewrite elem_of_nil];
    intuition congruence.
Qed.

Lemma get_ap_changes_app (base_ap comp_ap : ap) :
  _get_ap_changes base_ap comp_ap
  = (if py_ne (ssid base_ap) (ssid comp_ap)
     then [SsidChanged (ssid base_ap) (ssid comp_ap)] else [])
    ++ (if py_ne (channel base_ap) (channel comp_ap)
        then [ChannelChanged (channel base_ap) (channel comp_ap)] else [])
    ++ (if bool_decide (crypt base_ap ≠ crypt comp_ap)
        then [EncryptionChanged (crypt base_ap) (crypt comp_ap)] else []).
Proof.
  unfold _get_ap_changes.
  by destruct (py_ne (ssid base_ap) (ssid comp_ap)),
    (py_ne (channel base_ap) (channel comp_ap)),
    (bool_decide (crypt base_ap ≠ crypt comp_ap)).
Qed.

Lemma get_ap_changes_spec (base_ap comp_ap : ap) :
  NoDup (_get_ap_changes base_ap comp_ap) ∧
  ∀ ch, ch ∈ _get_ap_changes base_ap comp_ap ↔
        (ch = SsidChanged (ssid base_ap) (ssid comp_ap)
         ∧ py_ne (ssid base_ap) (ssid comp_ap) = true) ∨
        (ch = ChannelChanged (channel base_ap) (channel comp_ap)
         ∧ py_ne (channel base_ap) (channel comp_ap) = true) ∨
        (ch = EncryptionChanged (crypt base_ap) (crypt comp_ap)
         ∧ crypt base_ap ≠ crypt comp_ap).
Proof.
  rewrite get_ap_changes_app. split.
  - destruct (py_ne (ssid base_ap) (ssid comp_ap)),
      (py_ne (channel base_ap) (channel comp_ap)),
      (bool_decide (crypt base_ap ≠ crypt comp_ap)); simpl;
      repeat (apply NoDup_cons_2;
                [rewrite ?elem_of_cons, ?elem_of_nil; intuition discriminate|]);
      apply NoDup_nil_2.
  - intros ch. rewrite !elem_of_app, !elem_of_when, bool_decide_eq_true.
    tauto.
Qed.

Lemma get_ap_changes_same (a : ap) : nan_free a → _get_ap_changes a a = [].
Proof.
  intros [Hs Hc]. unfold _get_ap_changes. rewrite !py_ne_irrefl by done.
  by rewrite bool_decide_eq_false_2 by (by intros ?).
Qed.

Lemma common_keys_lookup {V} (mb mc : gmap string V) (k : string) :
  k ∈ sorted (dom mb ∩ dom mc) ↔ is_Some (mb !! k) ∧ is_Some (mc !! k).
Proof. by rewrite elem_of_sorted, elem_of_intersection, !elem_of_dom. Qed.

Lemma client_change_block_eq (mac : string) (b c : client) :
  client_change_block mac b c
  = if bool_decide (probed_ssids c ∖ probed_ssids b ≠ ∅)
       || bool_decide (probed_ssids b ∖ probed_ssids c ≠ ∅)
    then client_block mac (sorted (probed_ssids c ∖ probed_ssids b))
                      (sorted (probed_ssids b ∖ probed_ssids c))
    else [].
Proof.
  unfold client_change_block, client_block, _get_client_probe_changes.
  assert (∀ (X : gset string) (on : list line),
            (if bool_decide (X ≠ ∅) then on else [])
            = (if decide (sorted X = []) then [] else on)) as Hif.
  { intros X on. case_bool_decide as HX.
    - rewrite decide_False; [done|]. by rewrite sorted_nil.
    - rewrite decide_True; [done|]. apply sorted_nil.
      by destruct (decide (X = ∅)). }
  by rewrite !Hif.
Qed.

End changes.

(** C3.  [_get_ap_changes] returns one change for each of the fields
    SSID, channel and encryption whose two values differ under Python's
    [!=], and nothing else; a string never equals an integer there.
    [_report_ap_changes] never raises and prints, after the count of the
    common keys, one block for each MAC that is a key of both tables and
    has at least one change, in ascending order of MAC: the MAC with
    the baseline SSID, then its changes. *)
Theorem ap_field_changes (baseline_aps comp_aps : gmap string ap) :
  (∀ base_ap comp_ap,
     NoDup (_get_ap_changes base_ap comp_ap) ∧
     ∀ ch, ch ∈ _get_ap_changes base_ap comp_ap ↔
           (ch = SsidChanged (ssid base_ap) (ssid comp_ap)
            ∧ py_ne (ssid base_ap) (ssid comp_ap) = true) ∨
           (ch = ChannelChanged (channel base_ap) (channel comp_ap)
            ∧ py_ne (channel base_ap) (channel comp_ap) = true) ∨
           (ch = EncryptionChanged (crypt base_ap) (crypt comp_ap)
            ∧ crypt base_ap ≠ crypt comp_ap)) ∧
  (∀ s z, py_ne (VStr s) (VInt z) = true) ∧
  ∃ changed : list (string * ap * ap),
    _report_ap_changes baseline_aps comp_aps
    = Some (AnalyzingAps (size (dom baseline_aps ∩ dom comp_aps))
            :: (changed ≫= λ e, ap_block e.1.1 e.1.2 e.2)) ∧
    StronglySorted str_le changed.*1.*1 ∧
    NoDup changed.*1.*1 ∧
    ∀ mac b c,
      (mac, b, c) ∈ changed ↔
      baseline_aps !! mac = Some b ∧ comp_aps !! mac = Some c
      ∧ _get_ap_changes b c ≠ [].
Proof.
  split; [apply get_ap_changes_spec|]. split; [done|].
  destruct (mapM_common baseline_aps comp_aps
              (λ b c, bool_decide (_get_ap_changes b c ≠ [])) ap_block
              (sorted (dom baseline_aps ∩ dom comp_aps)))
    as (blocks & changed & Hm & Hc & Hsub & Hin).
  { intros k. apply common_keys_lookup. }
  exists changed. split_and!.
  - unfold _report_ap_changes.
    assert (mapM (λ mac, base_ap ← baseline_aps !! mac;
                         comp_ap ← comp_aps !! mac;
                         Some (ap_change_block mac base_ap comp_ap))
                 (sorted (dom baseline_aps ∩ dom comp_aps)) = Some blocks)
      as -> by exact Hm.
    simpl. by rewrite Hc.
  - apply (StronglySorted_sublist _ _ _ Hsub), StronglySorted_sorted.
  - apply (sublist_NoDup _ _ (NoDup_sorted _) Hsub).
  - intros mac b c. rewrite Hin, common_keys_lookup, bool_decide_eq_true.
    split; [tauto|]. intros (Hb & Hcc & ?). by rewrite Hb, Hcc.
Qed.

(** C5.  [_get_client_probe_changes] returns the names the comparison
    client probes for and the baseline client does not, and the names the
    baseline client probes for and the comparison client does not.
    [_report_client_changes] never raises and prints, after the count of
    the common keys, one block for each MAC that is a key of both tables
    and has one of the two sets not empty, in ascending order of MAC: the
    MAC, then the added names and the removed names, each in ascending
    order and left out when empty. *)
Theorem client_probe_changes (baseline_clients comp_clients : gmap string client) :
  (∀ base_client comp_client,
     _get_client_probe_changes base_client comp_client
     = (probed_ssids comp_client ∖ probed_ssids base_client,
        probed_ssids base_client ∖ probed_ssids comp_client)) ∧
  ∃ changed : list (string * list string * list string),
    _report_client_changes baseline_clients comp_clients
    = Some (AnalyzingClients (size (dom baseline_clients ∩ dom comp_clients))
            :: (changed ≫= λ e, client_block e.1.1 e.1.2 e.2)) ∧
    StronglySorted str_le changed.*1.*1 ∧
    NoDup changed.*1.*1 ∧
    ∀ mac added removed,
      (mac, added, removed) ∈ changed ↔
      ∃ b c,
        baseline_clients !! mac = Some b ∧ comp_clients !! mac = Some c ∧
        listing (probed_ssids c ∖ probed_ssids b) added ∧
        listing (probed_ssids b ∖ probed_ssids c) removed ∧
        (added ≠ [] ∨ removed ≠ []).
Proof.
  split; [done|].
  set (keep := λ b c : client,
         bool_decide (probed_ssids c ∖ probed_ssids b ≠ ∅)
         || bool_decide (probed_ssids b ∖ probed_ssids c ≠ ∅)).
  set (block := λ (mac : string) (b c : client),
         client_block mac (sorted (probed_ssids c ∖ probed_ssids b))
                      (sorted (probed_ssids b ∖ probed_ssids c))).
  set (summary := λ e : string * client * client,
         (e.1.1, sorted (probed_ssids e.2 ∖ probed_ssids e.1.2),
          sorted (probed_ssids e.1.2 ∖ probed_ssids e.2))).
  destruct (mapM_common baseline_clients comp_clients keep block
              (sorted (dom baseline_clients ∩ dom comp_clients)))
    as (blocks & kept & Hm & Hc & Hsub & Hin).
  { intros k. apply common_keys_lookup. }
  assert ((summary <$> kept).*1.*1 = kept.*1.*1) as Hkeys.
  { rewrite <- !list_fmap_compose. by apply list_fmap_ext; intros i [[k b] c]. }
  exists (summary <$> kept). split_and!.
  - unfold _report_client_changes.
    erewrite mapM_ext; [rewrite Hm|].
    + cbn [mbind option_bind]. rewrite Hc. do 2 f_equal. clear.
      induction kept as [|[[k b] c] kept IH]; [done|].
      by rewrite fmap_cons, !bind_cons, IH.
    + intros mac. simpl.
      destruct (baseline_clients !! mac) as [b|]; [|done]. simpl.
      destruct (comp_clients !! mac) as [c|]; [|done]. simpl.
      by rewrite client_change_block_eq.
  - rewrite Hkeys.
    apply (StronglySorted_sublist _ _ _ Hsub), StronglySorted_sorted.
  - rewrite Hkeys. apply (sublist_NoDup _ _ (NoDup_sorted _) Hsub).
  - intros mac added removed. rewrite list_elem_of_fmap. split.
    + intros ([[k b] c] & [= -> -> ->] & (_ & Hb & Hcc & Hkeep)%Hin).
      exists b, c. simpl. split_and!; [done|done|apply listing_sorted..|].
      rewrite !sorted_nil. unfold keep in Hkeep.
      apply orb_true_iff in Hkeep as [H|H]; apply bool_decide_eq_true in H;
        [by left|by right].
    + intros (b & c & Hb & Hcc & ->%listing_unique & ->%listing_unique & Hne).
      exists (mac, b, c). split; [done|]. apply Hin.
      rewrite common_keys_lookup, Hb, Hcc. split_and!; [by eauto..|done|done|].
      unfold keep. apply orb_true_iff. rewrite !bool_decide_eq_true.
      by rewrite !sorted_nil in Hne.
Qed.

(** ** An inventory against itself *)

Section reflexivity.

Lemma client_change_block_same (mac : string) (c : client) :
  client_change_block mac c c = [].
Proof.
  rewrite client_change_block_eq, difference_diag_L.
  by rewrite bool_decide_eq_false_2 by (by intros ?).
Qed.

Lemma ap_change_block_same (mac : string) (a : ap) :
  nan_free a → ap_change_block mac a a = [].
Proof.
  intros Ha. unfold ap_change_block. rewrite get_ap_changes_same by done.
  by rewrite bool_decide_eq_false_2 by (by intros ?).
Qed.

Lemma mapM_same {V} (m : gmap string V)
    (block : string → V → V → list line) (ks : list string) :
  (∀ k, k ∈ ks → is_Some (m !! k)) →
  (∀ k v, m !! k = Some v → block k v v = []) →
  ∃ blocks,
    mapM (λ mac, b ← m !! mac; c ← m !! mac; Some (block mac b c)) ks
    = Some blocks ∧
    concat blocks = [].
Proof.
  intros Hks Hblock. induction ks as [|k ks IH].
  - by exists [].
  - destruct IH as (blocks & Hm & Hc); [intros; apply Hks; by right|].
    destruct (Hks k) as [v Hv]; [by left|].
    exists ([] :: blocks). simpl. rewrite Hv. simpl.
    by rewrite (Hblock k v Hv), Hm.
Qed.

Lemma size_common_same {V} (m : gmap string V) :
  size (dom m ∩ dom m) = size (dom m).
Proof. by rewrite intersection_idemp_L. Qed.

Lemma common_same_lookup {V} (m : gmap string V) (k : string) :
  k ∈ sorted (dom m ∩ dom m) → is_Some (m !! k).
Proof. by intros [? _]%common_keys_lookup. Qed.

End reflexivity.

(** C8, as the code has it.  Diffing an inventory against itself prints
    the headers and the counts alone, in all three sections, when no
    access point of the inventory has the float [nan] as SSID or channel:
    then there is no new or missing access point or client, no access
    point with a changed field, no client with an added or removed name,
    no newly probed name and no name no longer probed. *)
Theorem self_diff_empty (I : tables) :
  (∀ mac a, aps I !! mac = Some a → nan_free a) →
  self_diff_is_empty I.
Proof.
  intros Hnan.
  assert (∀ V (m : gmap string V), new_keys m m = ∅) as Hnew
    by (intros; apply difference_diag_L).
  assert (∀ V (m : gmap string V), missing_keys m m = ∅) as Hmis
    by (intros; apply difference_diag_L).
  assert (_report_ap_changes (aps I) (aps I)
          = Some [AnalyzingAps (size (dom (aps I)))]) as Haps.
  { unfold _report_ap_changes.
    destruct (mapM_same (aps I) ap_change_block
                (sorted (dom (aps I) ∩ dom (aps I))))
      as (blocks & -> & Hc); [apply common_same_lookup| |].
    { intros k a Ha. apply ap_change_block_same. by apply (Hnan k). }
    simpl. by rewrite Hc, size_common_same. }
  assert (_report_client_changes (clients I) (clients I)
          = Some [AnalyzingClients (size (dom (clients I)))]) as Hclients.
  { unfold _report_client_changes.
    destruct (mapM_same (clients I) client_change_block
                (sorted (dom (clients I) ∩ dom (clients I))))
      as (blocks & -> & Hc); [apply common_same_lookup| |].
    { intros k c _. apply client_change_block_same. }
    simpl. by rewrite Hc, size_common_same. }
  unfold self_diff_is_empty. split_and!; [|done|done| |].
  - unfold report_new_and_missing, ap_listing, client_listing.
    by rewrite !Hnew, !Hmis, sorted_empty, size_empty.
  - unfold report_environmental_changes. by rewrite Haps, Hclients.
  - unfold report_probed_ssid_analysis.
    by rewrite !Hnew, !Hmis, sorted_empty, size_empty.
Qed.

Lemma self_diff_empty_witness :
  self_diff_is_empty (parse_kismet_log single_client_log).
Proof.
  apply (self_diff_empty (parse_kismet_log single_client_log)).
  assert (aps (parse_kismet_log single_client_log)
          = {["AA:AA" := Ap (VStr "Cafe") (VStr "6") "3"]}) as ->
    by (vm_compute; reflexivity).
  intros mac a [_ <-]%lookup_singleton_Some. by split.
Defined.

(** C8 as stated fails: a log with one access point whose channel is the
    JSON constant [NaN], diffed against itself, reports that access point
    with a channel change from [nan] to [nan]. *)
Lemma self_diff_nan_channel :
  ¬ self_diff_is_empty (parse_kismet_log nan_channel_log).
Proof.
  intros (_ & Haps & _).
  assert (match _report_ap_changes (aps (parse_kismet_log nan_channel_log))
                                   (aps (parse_kismet_log nan_channel_log))
          with
          | Some [_; l1; l2] =>
              bool_decide
                (l1 = ApChanged "AA:AA" (VStr "Cafe") ∧
                 l2 = ChangeLine (ChannelChanged (VConst NaN) (VConst NaN)))
          | _ => false
          end = true) as Hreal by (vm_compute; reflexivity).
  rewrite Haps in Hreal. discriminate Hreal.
Qed.

(** ** The scenarios of the specification *)

Example scenario_ssid_change :
  _get_ap_changes (Ap (VStr "Cafe") (VStr "6") "3")
                  (Ap (VStr "Cafe2") (VStr "6") "3")
  = [SsidChanged (VStr "Cafe") (VStr "Cafe2")].
Proof. reflexivity. Qed.

Example scenario_channel_types :
  _get_ap_changes (Ap (VStr "Cafe") (VStr "6") "3")
                  (Ap (VStr "Cafe") (VInt 6) "3")
  = [ChannelChanged (VStr "6") (VInt 6)].
Proof. reflexivity. Qed.

Example scenario_added_probe :
  _get_client_probe_changes (Client {["Home"]})
                            (Client ({["Home"]} ∪ {["Office"]}))
  = ({["Office"]}, ∅).
Proof. vm_compute. reflexivity. Qed.

Example scenario_new_ap :
  report_new_and_missing ∅ {["CC:CC" := Ap (VStr "N/A") (VStr "N/A") "Unknown"]}
                         ∅ ∅
  = Some [ApSectionHeader; NewApCount 1; ApEntry "CC:CC" (VStr "N/A");
          MissingApCount 0;
          ClientSectionHeader; NewClientCount 0; MissingClientCount 0].
Proof. vm_compute. reflexivity. Qed.

Example scenario_guest_gone :
  report_probed_ssid_analysis {["Guest" := {["X"]}]} ∅
  = [Rule; ProbedHeader; NewProbedCount 0;
     GoneProbedCount 1; GoneProbed "Guest"].
Proof. vm_compute. reflexivity. Qed.

Example scenario_wifi_family :
  str_contains "Wi-Fi" "Wi-Fi Client" = true ∧
  str_contains "Wi-Fi" "Bridged Wi-Fi Device" = true ∧
  str_contains "Wi-Fi" "Bluetooth" = false ∧
  str_contains "Wi-Fi" "" = false.
Proof. by split_and!. Qed.

Example scenario_render :
  render (NewProbed "Office" ["AA:AA"; "BB:BB"])
  = "  - 'Office' (by: AA:AA, BB:BB)".
Proof. reflexivity. Qed.

(** ** No [KeyError] *)

Section totality.

Lemma report_new_and_missing_total (baseline_aps comp_aps : gmap string ap)
    (baseline_clients comp_clients : gmap string client) :
  is_Some (report_new_and_missing baseline_aps comp_aps
                                  baseline_clients comp_clients).
Proof.
  unfold report_new_and_missing.
  destruct (ap_listing_spec comp_aps (new_keys baseline_aps comp_aps))
    as (l1 & -> & _); [apply new_keys_subseteq|].
  destruct (ap_listing_spec baseline_aps (missing_keys baseline_aps comp_aps))
    as (l2 & -> & _); [apply missing_keys_subseteq|].
  by eexists.
Qed.

Lemma report_ap_changes_total (baseline_aps comp_aps : gmap string ap) :
  is_Some (_report_ap_changes baseline_aps comp_aps).
Proof.
  unfold _report_ap_changes.
  destruct (mapM_common baseline_aps comp_aps (λ _ _, true) ap_change_block
              (sorted (dom baseline_aps ∩ dom comp_aps)))
    as (blocks & _ & -> & _); [intros k; apply common_keys_lookup|].
  by eexists.
Qed.

Lemma report_client_changes_total
    (baseline_clients comp_clients : gmap string client) :
  is_Some (_report_client_changes baseline_clients comp_clients).
Proof.
  unfold _report_client_changes.
  destruct (mapM_common baseline_clients comp_clients (λ _ _, true)
              client_change_block
              (sorted (dom baseline_clients ∩ dom comp_clients)))
    as (blocks & _ & -> & _); [intros k; apply common_keys_lookup|].
  by eexists.
Qed.

(** The three reports on two parsed logs always run to the end. *)
Lemma main_total (baseline comparison : list log_line) :
  is_Some (main baseline comparison).
Proof.
  unfold main, report_environmental_changes.
  destruct (report_new_and_missing_total
              (aps (parse_kismet_log baseline))
              (aps (parse_kismet_log comparison))
              (clients (parse_kismet_log baseline))
              (clients (parse_kismet_log comparison))) as [l1 ->].
  destruct (report_ap_changes_total
              (aps (parse_kismet_log baseline))
              (aps (parse_kismet_log comparison))) as [l2 ->].
  destruct (report_client_changes_total
              (clients (parse_kismet_log baseline))
              (clients (parse_kismet_log comparison))) as [l3 ->].
  by eexists.
Qed.

End totality.

(** * Further properties of the inventory builder *)

Section builder_more.

Implicit Types (d : device) (t : tables) (mac n : string).
Implicit Types (lines : list log_line).

Lemma is_ap_record_spec d : is_ap_record d = true ↔ ∃ mac, ap_record mac d.
Proof.
  unfold is_ap_record, ap_record, py_not.
  destruct (kismet_device_base_macaddr d) as [m|]; simpl.
  - rewrite andb_true_iff, negb_true_iff, bool_decide_eq_false,
      bool_decide_eq_true.
    split; [intros [? ?]; by exists m|].
    intros (mac & [= ->] & ? & ?). done.
  - split; [done|]. by intros (mac & ? & _).
Qed.

Lemma is_client_record_spec d :
  is_client_record d = true ↔ ∃ mac, client_record mac d.
Proof.
  unfold is_client_record, client_record, py_not.
  destruct (kismet_device_base_macaddr d) as [m|]; simpl; last first.
  { split; [done|]. by intros (mac & ? & _). }
  rewrite andb_true_iff, negb_true_iff, bool_decide_eq_false.
  destruct (kismet_device_base_type d) as [ty|].
  - rewrite andb_true_iff, bool_decide_eq_true. split.
    + intros (? & ? & ?). exists m. split_and!; [done..|]. by exists ty.
    + intros (mac & [= ->] & ? & ty' & [= ->] & ? & ?). done.
  - split; [by intros [_ ?]|]. by intros (mac & _ & _ & ty & ? & _).
Qed.

Global Instance ap_record_dec mac d : Decision (ap_record mac d).
Proof. unfold ap_record. apply _. Defined.

Global Instance client_record_dec mac d : Decision (client_record mac d).
Proof.
  destruct (decide (kismet_device_base_macaddr d = Some mac ∧ mac ≠ ""))
    as [Hm|Hm]; [|right; intros (? & ? & _); tauto].
  destruct (kismet_device_base_type d) as [ty|] eqn:Hty;
    [|right; intros (_ & _ & ty & ? & _); congruence].
  destruct (decide (ty ≠ "Wi-Fi AP" ∧ str_contains "Wi-Fi" ty = true))
    as [Hc|Hc].
  - left. destruct Hm, Hc. split_and!; [done..|]. by exists ty.
  - right. intros (_ & _ & ty' & Hty' & ? & ?).
    rewrite Hty in Hty'. injection Hty' as <-. tauto.
Defined.

(** A record that is no AP record leaves the whole AP table alone. *)
Lemma aps_step_not_ap d t :
  is_ap_record d = false → aps (_process_device d t) = aps t.
Proof.
  intros Hno. apply map_eq. intros mac. apply aps_step_other.
  intros Hrec. assert (is_ap_record d = true) by (apply is_ap_record_spec; eauto).
  congruence.
Qed.

(** A record that is no client record leaves the client table and the
    index alone. *)
Lemma clients_step_not_client d t :
  is_client_record d = false →
  clients (_process_device d t) = clients t ∧
  probed_ssid_map (_process_device d t) = probed_ssid_map t.
Proof.
  intros Hno.
  destruct (process_device_cases d t) as [[m H]|[[m H]|[H1 H2]]].
  - by rewrite (process_ap d t m H).
  - assert (is_client_record d = true)
      by (apply is_client_record_spec; eauto). congruence.
  - by rewrite process_other.
Qed.

Lemma aps_foldl_where lines t t' :
  aps t = aps t' →
  aps (foldl parse_step t lines)
  = aps (foldl parse_step t' (records_where is_ap_record lines)).
Proof.
  revert t t'. induction lines as [|[d|] lines IH]; intros t t' Ht; simpl;
    [done| |by apply IH].
  destruct (is_ap_record d) eqn:Hd; simpl.
  - apply IH. apply is_ap_record_spec in Hd as [mac Hd].
    rewrite (process_ap d t mac Hd), (process_ap d t' mac Hd). simpl.
    by rewrite Ht.
  - apply IH. by rewrite aps_step_not_ap.
Qed.

Lemma clients_foldl_where lines t t' :
  clients t = clients t' → probed_ssid_map t = probed_ssid_map t' →
  clients (foldl parse_step t lines)
  = clients (foldl parse_step t' (records_where is_client_record lines)) ∧
  probed_ssid_map (foldl parse_step t lines)
  = probed_ssid_map
      (foldl parse_step t' (records_where is_client_record lines)).
Proof.
  revert t t'. induction lines as [|[d|] lines IH]; intros t t' Hc Hp; simpl;
    [done| |by apply IH].
  destruct (is_client_record d) eqn:Hd; simpl.
  - apply is_client_record_spec in Hd as [mac Hd].
    apply IH; rewrite (process_client d t mac Hd), (process_client d t' mac Hd);
      simpl; by rewrite ?Hc, ?Hp.
  - destruct (clients_step_not_client d t Hd) as [H1 H2].
    apply IH; congruence.
Qed.

Lemma ap_not_client_record d :
  is_ap_record d = true → is_client_record d = false.
Proof.
  intros [m Hd]%is_ap_record_spec.
  destruct (is_client_record d) eqn:Hd'; [|done].
  apply is_client_record_spec in Hd' as [m' Hd'].
  by destruct (ap_record_not_client m m' d).
Qed.

Lemma records_where_ap_client lines :
  records_where is_client_record (records_where is_ap_record lines) = [].
Proof.
  induction lines as [|[d|] lines IH]; simpl; [done| |done].
  destruct (is_ap_record d) eqn:Hd; simpl; [|done].
  by rewrite ap_not_client_record.
Qed.

Lemma records_where_client_ap lines :
  records_where is_ap_record (records_where is_client_record lines) = [].
Proof.
  induction lines as [|[d|] lines IH]; simpl; [done| |done].
  destruct (is_client_record d) eqn:Hd; simpl; [|done].
  destruct (is_ap_record d) eqn:Hd'; [|done].
  apply ap_not_client_record in Hd'. congruence.
Qed.

End builder_more.

(** X1.  Each table is built from its own records alone: the AP table of
    a log is the AP table of its AP records, and the client table and the
    index are those of its client records.  Lines that do not decode,
    records with no MAC or no type, and records of other device types take
    no part; an AP record never touches the client side nor a client
    record the AP side. *)
Theorem parse_by_record_kind (lines : list log_line) :
  aps (parse_kismet_log lines)
  = aps (parse_kismet_log (records_where is_ap_record lines)) ∧
  clients (parse_kismet_log lines)
  = clients (parse_kismet_log (records_where is_client_record lines)) ∧
  probed_ssid_map (parse_kismet_log lines)
  = probed_ssid_map
      (parse_kismet_log (records_where is_client_record lines)) ∧
  clients (parse_kismet_log (records_where is_ap_record lines)) = ∅ ∧
  probed_ssid_map (parse_kismet_log (records_where is_ap_record lines)) = ∅ ∧
  aps (parse_kismet_log (records_where is_client_record lines)) = ∅.
Proof.
  unfold parse_kismet_log.
  destruct (clients_foldl_where lines empty_tables empty_tables) as [Hc Hp];
    [done..|].
  split_and!; [by apply aps_foldl_where|done|done| | |].
  - destruct (clients_foldl_where (records_where is_ap_record lines)
                empty_tables empty_tables) as [-> _]; [done..|].
    by rewrite records_where_ap_client.
  - destruct (clients_foldl_where (records_where is_ap_record lines)
                empty_tables empty_tables) as [_ ->]; [done..|].
    by rewrite records_where_ap_client.
  - rewrite (aps_foldl_where (records_where is_client_record lines)
               empty_tables empty_tables) by done.
    by rewrite records_where_client_ap.
Qed.

Section builder_keys.

Implicit Types (d : device) (t : tables) (mac n : string).
Implicit Types (lines : list log_line).

Lemma aps_dom_foldl lines t mac :
  mac ∈ dom (aps (foldl parse_step t lines))
  ↔ mac ∈ dom (aps t) ∨ ∃ d, Some d ∈ lines ∧ ap_record mac d.
Proof.
  revert t. induction lines as [|[d|] lines IH]; intros t; simpl.
  - split; [by left|]. intros [?|(d & Hd & _)]; [done|]. by inversion Hd.
  - rewrite IH, !elem_of_dom. destruct (decide (ap_record mac d)) as [Hd|Hd].
    + rewrite (aps_step_ap d t mac Hd). split.
      * intros _. right. exists d. split; [by left|done].
      * intros _. left. by eexists.
    + rewrite (aps_step_other d t mac Hd). split.
      * intros [?|(d' & ? & ?)]; [by left|]. right. exists d'.
        split; [by right|done].
      * intros [?|(d' & Hd' & ?)]; [by left|].
        apply elem_of_cons in Hd' as [[= ->]|?]; [done|]. right. by exists d'.
  - rewrite IH. split.
    + intros [?|(d' & ? & ?)]; [by left|]. right. exists d'.
      split; [by right|done].
    + intros [?|(d' & Hd' & ?)]; [by left|].
      apply elem_of_cons in Hd' as [?|?]; [done|]. right. by exists d'.
Qed.

Lemma clients_dom_foldl lines t mac :
  mac ∈ dom (clients (foldl parse_step t lines))
  ↔ mac ∈ dom (clients t) ∨ ∃ d, Some d ∈ lines ∧ client_record mac d.
Proof.
  revert t. induction lines as [|[d|] lines IH]; intros t; simpl.
  - split; [by left|]. intros [?|(d & Hd & _)]; [done|]. by inversion Hd.
  - rewrite IH, !elem_of_dom.
    destruct (decide (client_record mac d)) as [Hd|Hd].
    + rewrite (clients_step_client d t mac Hd). split.
      * intros _. right. exists d. split; [by left|done].
      * intros _. left. by eexists.
    + rewrite (clients_step_other d t mac Hd). split.
      * intros [?|(d' & ? & ?)]; [by left|]. right. exists d'.
        split; [by right|done].
      * intros [?|(d' & Hd' & ?)]; [by left|].
        apply elem_of_cons in Hd' as [[= ->]|?]; [done|]. right. by exists d'.
  - rewrite IH. split.
    + intros [?|(d' & ? & ?)]; [by left|]. right. exists d'.
      split; [by right|done].
    + intros [?|(d' & Hd' & ?)]; [by left|].
      apply elem_of_cons in Hd' as [?|?]; [done|]. right. by exists d'.
Qed.

Lemma index_parse lines n mac :
  mac ∈ get_default (probed_ssid_map (parse_kismet_log lines) !! n) ∅
  ↔ ∃ d, Some d ∈ lines ∧ client_record mac d ∧ n ∈ probes_of d ∧ n ≠ "".
Proof.
  unfold parse_kismet_log. rewrite index_foldl. simpl.
  rewrite lookup_empty. simpl. split; [|by right].
  by intros [?%not_elem_of_empty|?].
Qed.

Lemma index_parse_nonempty lines n (X : gset string) :
  probed_ssid_map (parse_kismet_log lines) !! n = Some X → X ≠ ∅.
Proof.
  apply (index_foldl_nonempty lines empty_tables).
  intros n' X'. simpl. by rewrite lookup_empty.
Qed.

(** Two indexes with no empty entry that list the same clients under
    every name are the same map. *)
Lemma index_ext (m1 m2 : gmap string (gset string)) :
  (∀ n X, m1 !! n = Some X → X ≠ ∅) →
  (∀ n X, m2 !! n = Some X → X ≠ ∅) →
  (∀ n mac, mac ∈ get_default (m1 !! n) ∅ ↔ mac ∈ get_default (m2 !! n) ∅) →
  m1 = m2.
Proof.
  intros H1 H2 Hsame. apply map_eq. intros n.
  specialize (Hsame n).
  destruct (m1 !! n) as [X1|] eqn:E1, (m2 !! n) as [X2|] eqn:E2; simpl in *.
  - f_equal. by apply set_eq.
  - destruct (set_choose_L X1 (H1 n X1 E1)) as [mac Hmac].
    by apply Hsame, not_elem_of_empty in Hmac.
  - destruct (set_choose_L X2 (H2 n X2 E2)) as [mac Hmac].
    by apply Hsame, not_elem_of_empty in Hmac.
  - done.
Qed.

End builder_keys.

(** X2.  The keys of the tables: a MAC is a key of the AP table exactly
    when the log holds an AP record of it, and a key of the client table
    exactly when the log holds a client record of it; the empty string is
    never a key; and every MAC the index lists under a name is a key of
    the client table. *)
Theorem table_keys (lines : list log_line) :
  let t := parse_kismet_log lines in
  (∀ mac, mac ∈ dom (aps t) ↔ ∃ d, Some d ∈ lines ∧ ap_record mac d) ∧
  (∀ mac, mac ∈ dom (clients t) ↔ ∃ d, Some d ∈ lines ∧ client_record mac d) ∧
  ("" ∉ dom (aps t)) ∧ ("" ∉ dom (clients t)) ∧
  (∀ n X, probed_ssid_map t !! n = Some X → X ⊆ dom (clients t)).
Proof.
  intros t.
  assert (∀ mac, mac ∈ dom (aps t) ↔ ∃ d, Some d ∈ lines ∧ ap_record mac d)
    as Haps.
  { intros mac. unfold t, parse_kismet_log. rewrite aps_dom_foldl. simpl.
    rewrite dom_empty_L. split; [|by right].
    by intros [?%not_elem_of_empty|?]. }
  assert (∀ mac, mac ∈ dom (clients t)
                 ↔ ∃ d, Some d ∈ lines ∧ client_record mac d) as Hcl.
  { intros mac. unfold t, parse_kismet_log. rewrite clients_dom_foldl. simpl.
    rewrite dom_empty_L. split; [|by right].
    by intros [?%not_elem_of_empty|?]. }
  split_and!; [done|done| | |].
  - rewrite Haps. by intros (d & _ & _ & ? & _).
  - rewrite Hcl. by intros (d & _ & _ & ? & _).
  - intros n X HX mac Hmac. apply Hcl.
    assert (mac ∈ get_default (probed_ssid_map t !! n) ∅) as Hin
      by (by rewrite HX).
    apply index_parse in Hin as (d & ? & ? & _). by exists d.
Qed.

(** X3.  Last write wins for clients too: when [d] is the last client
    record of [mac] in the log, the stored probed names of [mac] are the
    names of [d] alone, duplicates collapsed; the names of the earlier
    records of that MAC are not kept. *)
Theorem client_last_write_wins (pre post : list log_line) (d : device)
    (mac : string) :
  client_record mac d →
  (∀ d', Some d' ∈ post → ¬ client_record mac d') →
  clients (parse_kismet_log (pre ++ Some d :: post)) !! mac
  = Some (Client (list_to_set
                    (get_default (dot11_client_probed_ssid_map d) []))).
Proof. apply clients_last_write. Qed.

Lemma client_last_write_wins_witness :
  clients (parse_kismet_log reseen_client_log) !! "CC:CC"
  = Some (Client (list_to_set ["B"])).
Proof.
  apply (client_last_write_wins [Some (dev_client "CC:CC" ["A"])] []
           (dev_client "CC:CC" ["B"]) "CC:CC").
  - by apply client_record_dev_client.
  - intros d' Hd'. by apply elem_of_nil in Hd'.
Defined.

(** X4.  The probed-name index does not depend on the order of the log:
    two logs with the same lines in another order build the same index
    (the AP and the client table do depend on it). *)
Theorem index_order_independent (lines lines' : list log_line) :
  lines ≡ₚ lines' →
  probed_ssid_map (parse_kismet_log lines)
  = probed_ssid_map (parse_kismet_log lines').
Proof.
  intros Hperm. apply index_ext.
  - apply index_parse_nonempty.
  - apply index_parse_nonempty.
  - intros n mac. rewrite !index_parse.
    split; intros (d & Hd & ?); exists d; split; try done.
    + by rewrite <- Hperm.
    + by rewrite Hperm.
Qed.

Lemma index_order_independent_witness :
  probed_ssid_map (parse_kismet_log reseen_client_log)
  = probed_ssid_map (parse_kismet_log (reverse reseen_client_log)) ∧
  clients (parse_kismet_log reseen_client_log)
  ≠ clients (parse_kismet_log (reverse reseen_client_log)).
Proof.
  split.
  - apply index_order_independent. symmetry. apply reverse_Permutation.
  - intros H. apply (f_equal (λ m, m !! "CC:CC")) in H.
    vm_compute in H. discriminate H.
Defined.

(** X5.  Nothing is ever removed: reading more lines keeps every key of
    the AP table and of the client table, and keeps every name of the
    index with at least the clients it listed. *)
Theorem parse_only_grows (lines more : list log_line) :
  let t := parse_kismet_log lines in
  let t' := parse_kismet_log (lines ++ more) in
  dom (aps t) ⊆ dom (aps t') ∧
  dom (clients t) ⊆ dom (clients t') ∧
  (∀ n X, probed_ssid_map t !! n = Some X →
          ∃ X', probed_ssid_map t' !! n = Some X' ∧ X ⊆ X').
Proof.
  intros t t'.
  assert (t' = foldl parse_step t more) as ->
    by (unfold t', t, parse_kismet_log; apply foldl_app).
  split_and!.
  - intros mac Hmac. apply aps_dom_foldl. by left.
  - intros mac Hmac. apply clients_dom_foldl. by left.
  - intros n X HX.
    destruct (set_choose_L X (index_parse_nonempty lines n X HX)) as [m Hm].
    assert (m ∈ get_default (probed_ssid_map (foldl parse_step t more) !! n) ∅)
      as Hin by (apply index_foldl; left; by rewrite HX).
    apply elem_of_get_default in Hin as (X' & HX' & _).
    exists X'. split; [done|]. intros mac Hmac.
    assert (mac ∈ get_default
                    (probed_ssid_map (foldl parse_step t more) !! n) ∅)
      as Hin by (apply index_foldl; left; by rewrite HX).
    by rewrite HX' in Hin.
Qed.

(** * Further properties of the diff engine *)

Section diff_more.

Lemma py_eqb_sym (a b : value) : py_eqb a b = py_eqb b a.
Proof.
  destruct a as [| | | |[]], b as [| | | |[]]; simpl; try done;
    apply bool_decide_ext; split; congruence.
Qed.

Lemma py_ne_sym (a b : value) : py_ne a b = py_ne b a.
Proof. unfold py_ne. by rewrite py_eqb_sym. Qed.

Lemma py_eqb_trans (a b c : value) :
  py_eqb a b = true → py_eqb b c = true → py_eqb a c = true.
Proof.
  destruct a as [| | | |[]], b as [| | | |[]], c as [| | | |[]]; simpl;
    try done; rewrite !bool_decide_eq_true; congruence.
Qed.

Lemma get_ap_changes_nil (a b : ap) :
  _get_ap_changes a b = []
  ↔ py_eqb (ssid a) (ssid b) = true ∧ py_eqb (channel a) (channel b) = true
    ∧ crypt a = crypt b.
Proof.
  rewrite get_ap_changes_app. unfold py_ne.
  destruct (py_eqb (ssid a) (ssid b)), (py_eqb (channel a) (channel b));
    case_bool_decide as Hc; simpl; split; try done; try tauto;
    try (intros (? & ? & ?); done).
Qed.

(** Where a MAC heads a block of [_report_ap_changes]. *)
Lemma ap_changed_in_report (baseline_aps comp_aps : gmap string ap)
    (lines : list line) (mac : string) (s : value) :
  _report_ap_changes baseline_aps comp_aps = Some lines →
  ApChanged mac s ∈ lines ↔
  ∃ b c, baseline_aps !! mac = Some b ∧ comp_aps !! mac = Some c ∧
         s = ssid b ∧ _get_ap_changes b c ≠ [].
Proof.
  unfold _report_ap_changes.
  destruct (mapM_common baseline_aps comp_aps
              (λ b c, bool_decide (_get_ap_changes b c ≠ [])) ap_block
              (sorted (dom baseline_aps ∩ dom comp_aps)))
    as (blocks & kept & Hm & Hc & _ & Hin); [intros k; apply common_keys_lookup|].
  assert (mapM (λ mac, base_ap ← baseline_aps !! mac;
                       comp_ap ← comp_aps !! mac;
                       Some (ap_change_block mac base_ap comp_ap))
               (sorted (dom baseline_aps ∩ dom comp_aps)) = Some blocks)
    as -> by exact Hm.
  simpl. rewrite Hc. intros [= <-].
  rewrite elem_of_cons, list_elem_of_bind. split.
  - intros [?|([[k b] c] & Hblock & Hk)]; [done|].
    apply Hin in Hk as (_ & Hb & Hcc & Hne%bool_decide_eq_true).
    unfold ap_block in Hblock. simpl in Hblock.
    apply elem_of_cons in Hblock as [[= -> ->]|Hblock]; [by exists b, c|].
    by apply list_elem_of_fmap in Hblock as (? & ? & _).
  - intros (b & c & Hb & Hcc & -> & Hne). right. exists (mac, b, c). split.
    + unfold ap_block. simpl. by left.
    + apply Hin. rewrite common_keys_lookup, Hb, Hcc, bool_decide_eq_true.
      split_and!; by eauto.
Qed.

End diff_more.

(** X6.  The three report sections split every key set in two: the keys
    of the comparison table are the new keys and the common keys, those of
    the baseline table the missing keys and the common keys, without
    overlap; so the new count and the common count printed add up to the
    size of the comparison table, and the missing count and the common
    count to the size of the baseline table. *)
Theorem diff_accounts_for_every_key {V} (baseline comp : gmap string V) :
  dom comp = new_keys baseline comp ∪ (dom baseline ∩ dom comp) ∧
  dom baseline = missing_keys baseline comp ∪ (dom baseline ∩ dom comp) ∧
  size (new_keys baseline comp) + size (dom baseline ∩ dom comp) = size comp ∧
  size (missing_keys baseline comp) + size (dom baseline ∩ dom comp)
  = size baseline.
Proof.
  unfold new_keys, missing_keys.
  assert (dom comp = dom comp ∖ dom baseline ∪ (dom baseline ∩ dom comp))
    as Hc.
  { apply set_eq. intros k.
    rewrite elem_of_union, elem_of_difference, elem_of_intersection.
    destruct (decide (k ∈ dom baseline)); tauto. }
  assert (dom baseline = dom baseline ∖ dom comp ∪ (dom baseline ∩ dom comp))
    as Hb.
  { apply set_eq. intros k.
    rewrite elem_of_union, elem_of_difference, elem_of_intersection.
    destruct (decide (k ∈ dom comp)); tauto. }
  split_and!; [done|done| |].
  - transitivity (size (dom comp ∖ dom baseline ∪ (dom baseline ∩ dom comp)));
      [|by rewrite <- Hc, size_dom].
    symmetry. apply size_union.
    intros k. rewrite elem_of_difference, elem_of_intersection. tauto.
  - transitivity (size (dom baseline ∖ dom comp ∪ (dom baseline ∩ dom comp)));
      [|by rewrite <- Hb, size_dom].
    symmetry. apply size_union.
    intros k. rewrite elem_of_difference, elem_of_intersection. tauto.
Qed.

(** X7.  Swapping baseline and comparison turns every change around and
    nothing else: [_get_ap_changes] then gives the same changes with old
    and new value exchanged, [_get_client_probe_changes] gives the added
    names as removed and the removed names as added, and
    [_report_ap_changes] heads a block for the same MACs. *)
Theorem changes_swap (baseline_aps comp_aps : gmap string ap) :
  (∀ a b, _get_ap_changes b a = swap_change <$> _get_ap_changes a b) ∧
  (∀ a b, _get_client_probe_changes b a
          = ((_get_client_probe_changes a b).2,
             (_get_client_probe_changes a b).1)) ∧
  ∃ forth back,
    _report_ap_changes baseline_aps comp_aps = Some forth ∧
    _report_ap_changes comp_aps baseline_aps = Some back ∧
    ∀ mac, (∃ s, ApChanged mac s ∈ forth) ↔ (∃ s, ApChanged mac s ∈ back).
Proof.
  assert (∀ a b, _get_ap_changes b a = swap_change <$> _get_ap_changes a b)
    as Hswap.
  { intros a b. rewrite !get_ap_changes_app.
    rewrite (py_ne_sym (ssid b)), (py_ne_sym (channel b)).
    rewrite (bool_decide_ext (crypt b ≠ crypt a) (crypt a ≠ crypt b))
      by (split; congruence).
    by destruct (py_ne (ssid a) (ssid b)), (py_ne (channel a) (channel b)),
      (bool_decide (crypt a ≠ crypt b)). }
  split_and!; [done|done|].
  destruct (report_ap_changes_total baseline_aps comp_aps) as [forth Hf].
  destruct (report_ap_changes_total comp_aps baseline_aps) as [back Hb].
  exists forth, back. split_and!; [done|done|]. intros mac.
  assert (∀ a b, _get_ap_changes b a ≠ [] ↔ _get_ap_changes a b ≠ []) as Hne.
  { intros a b. rewrite Hswap. by destruct (_get_ap_changes a b). }
  split; intros [s Hs].
  - apply (ap_changed_in_report _ _ _ _ _ Hf) in Hs as (b & c & ? & ? & _ & ?).
    exists (ssid c). apply (ap_changed_in_report _ _ _ _ _ Hb).
    exists c, b. split_and!; [done..|]. by apply Hne.
  - apply (ap_changed_in_report _ _ _ _ _ Hb) in Hs as (b & c & ? & ? & _ & ?).
    exists (ssid c). apply (ap_changed_in_report _ _ _ _ _ Hf).
    exists c, b. split_and!; [done..|]. by apply Hne.
Qed.

(** X8.  Having no reported field change is symmetric and transitive on
    stored access points: none from [a] to [b] means none from [b] to [a],
    and none from [a] to [b] and from [b] to [c] means none from [a] to
    [c].  An entry has none against itself exactly when neither its SSID
    nor its channel is the float [nan]. *)
Theorem ap_unchanged_symmetric_transitive :
  Symmetric (λ a b : ap, _get_ap_changes a b = []) ∧
  Transitive (λ a b : ap, _get_ap_changes a b = []) ∧
  ∀ a, _get_ap_changes a a = [] ↔ nan_free a.
Proof.
  split_and!.
  - intros a b. rewrite !get_ap_changes_nil, (py_eqb_sym (ssid b)),
      (py_eqb_sym (channel b)). intros (? & ? & ?). by split_and!.
  - intros a b c. rewrite !get_ap_changes_nil.
    intros (? & ? & ?) (? & ? & ?). split_and!; [| |congruence].
    + by apply py_eqb_trans with (ssid b).
    + by apply py_eqb_trans with (channel b).
  - intros a. split; [|apply get_ap_changes_same].
    rewrite get_ap_changes_nil. intros (Hs & Hc & _).
    split; intros Hnan; rewrite Hnan in *; done.
Qed.

(** X9.  The probed-name section mentions a name exactly when one index
    has it as a key and the other has not.  A name that is a key of both
    is never mentioned, also when the clients listed under it differ. *)
Theorem probed_diff_names (baseline_probes comp_probes : gmap string (gset string))
    (name : string) :
  (∃ l, l ∈ report_probed_ssid_analysis baseline_probes comp_probes
        ∧ probed_line_name l = Some name)
  ↔ (name ∈ dom comp_probes ∧ name ∉ dom baseline_probes)
    ∨ (name ∈ dom baseline_probes ∧ name ∉ dom comp_probes).
Proof.
  unfold report_probed_ssid_analysis, new_keys, missing_keys. split.
  - intros (l & Hl & Hname).
    rewrite !elem_of_app, !elem_of_cons, elem_of_nil in Hl.
    destruct Hl as [[->|[->|[->|[]]]]|[Hl|[[->|[]]|Hl]]]; try done.
    + apply list_elem_of_fmap in Hl as (n & -> & Hn%elem_of_sorted).
      simpl in Hname. injection Hname as ->.
      left. by apply elem_of_difference in Hn.
    + apply list_elem_of_fmap in Hl as (n & -> & Hn%elem_of_sorted).
      simpl in Hname. injection Hname as ->.
      right. by apply elem_of_difference in Hn.
  - intros [Hn|Hn].
    + exists (NewProbed name (sorted (get_default (comp_probes !! name) ∅))).
      split; [|done]. rewrite !elem_of_app. right; left.
      apply list_elem_of_fmap. exists name. split; [done|].
      by apply elem_of_sorted, elem_of_difference.
    + exists (GoneProbed name). split; [|done].
      rewrite !elem_of_app. do 3 right.
      apply list_elem_of_fmap. exists name. split; [done|].
      by apply elem_of_sorted, elem_of_difference.
Qed.

Section sections_agree.

(** With one client record for each MAC, the clients the index lists
    under a name store that name. *)
Lemma index_backward_once (lines : list log_line) (n mac : string)
    (X : gset string) :
  client_once lines →
  probed_ssid_map (parse_kismet_log lines) !! n = Some X → mac ∈ X →
  ∃ c, clients (parse_kismet_log lines) !! mac = Some c ∧ n ∈ probed_ssids c.
Proof.
  intros Honce HX Hmac.
  assert (mac ∈ get_default (probed_ssid_map (parse_kismet_log lines) !! n) ∅)
    as Hin by (by rewrite HX).
  apply index_parse in Hin as (d & Hd & Hrec & Hn & _).
  apply list_elem_of_split in Hd as (pre & post & ->).
  exists (Client (probes_of d)). split; [|done].
  apply clients_last_write; [done|].
  intros d' Hd' Hrec'. apply list_elem_of_lookup in Hd' as [k Hk].
  assert (length pre = length pre + S k) as Heq; [|lia].
  apply (Honce _ _ d d' mac); [| |done..].
  - by rewrite list_lookup_middle.
  - rewrite lookup_app_r by lia.
    by replace (length pre + S k - length pre) with (S k) by lia.
Qed.

End sections_agree.

(** X10.  The sections agree when the comparison log has one client
    record for each MAC: every client listed under a newly probed name is
    either a new client or a common client with that name among its added
    names, whatever the baseline log holds. *)
Theorem newly_probed_explained (baseline comparison : list log_line)
    (name mac : string) (macs : gset string) :
  client_once comparison →
  probed_ssid_map (parse_kismet_log comparison) !! name = Some macs →
  name ∉ dom (probed_ssid_map (parse_kismet_log baseline)) →
  mac ∈ macs →
  mac ∈ new_keys (clients (parse_kismet_log baseline))
                 (clients (parse_kismet_log comparison))
  ∨ ∃ bc cc,
      clients (parse_kismet_log baseline) !! mac = Some bc ∧
      clients (parse_kismet_log comparison) !! mac = Some cc ∧
      name ∈ (_get_client_probe_changes bc cc).1.
Proof.
  intros Honce Hmacs Hnew Hmac.
  destruct (index_backward_once comparison name mac macs Honce Hmacs Hmac)
    as (cc & Hcc & Hname).
  assert (name ≠ "") as Hne.
  { assert (mac ∈ get_default
                    (probed_ssid_map (parse_kismet_log comparison) !! name) ∅)
      as Hin by (by rewrite Hmacs).
    by apply index_parse in Hin as (_ & _ & _ & _ & ?). }
  destruct (clients (parse_kismet_log baseline) !! mac) as [bc|] eqn:Hbc.
  - right. exists bc, cc. split_and!; [done..|]. simpl.
    apply elem_of_difference. split; [done|]. intros Hold.
    apply Hnew, elem_of_dom.
    assert (mac ∈ get_default
                    (probed_ssid_map (parse_kismet_log baseline) !! name) ∅)
      as Hin
      by (by apply (listed_foldl baseline empty_tables listed_empty mac bc)).
    apply elem_of_get_default in Hin as (X & -> & _). by eexists.
  - left. apply elem_of_difference. split.
    + apply elem_of_dom. by eexists.
    + by apply not_elem_of_dom.
Qed.

Lemma newly_probed_explained_witness :
  ∃ bc cc,
    clients (parse_kismet_log single_client_log) !! "BB:BB" = Some bc ∧
    clients (parse_kismet_log
               [Some (dev_client "BB:BB" ["Home"; "Office"])]) !! "BB:BB"
    = Some cc ∧
    "Office" ∈ (_get_client_probe_changes bc cc).1.
Proof.
  destruct (newly_probed_explained single_client_log
              [Some (dev_client "BB:BB" ["Home"; "Office"])]
              "Office" "BB:BB" {["BB:BB"]}) as [Hnew|H].
  - intros [|i] [|j] d d' mac; simpl; try done;
      rewrite ?lookup_nil; done.
  - vm_compute. reflexivity.
  - intros Hin%elem_of_dom. vm_compute in Hin. by destruct Hin.
  - by apply elem_of_singleton.
  - exfalso. unfold new_keys in Hnew.
    apply elem_of_difference in Hnew as [_ Hnot].
    apply Hnot, elem_of_dom. vm_compute. by eexists.
  - exact H.
Defined.

(** * Properties of the setup code *)

Section setup_strings.

Implicit Types (s t u pre suf : string) (c : Ascii.ascii).

Lemma str_app_cons c s t : String c s +:+ t = String c (s +:+ t).
Proof. reflexivity. Qed.

Lemma str_app_nil_l s : "" +:+ s = s.
Proof. reflexivity. Qed.

Lemma str_app_nil_r s : s +:+ "" = s.
Proof.
  induction s as [|c s IH]; [done|]. by rewrite str_app_cons, IH.
Qed.

Lemma str_app_assoc s t u : (s +:+ t) +:+ u = s +:+ (t +:+ u).
Proof.
  induction s as [|c s IH]; [done|]. by rewrite !str_app_cons, IH.
Qed.

Lemma str_prefix_spec pre s :
  String.prefix pre s = true ↔ ∃ rest, s = pre +:+ rest.
Proof.
  revert s. induction pre as [|c pre IH]; intros s.
  - split; [intros _; exists s; reflexivity|intros _; by destruct s].
  - destruct s as [|c' s]; simpl;
      [split; [done|intros (? & H); discriminate H]|].
    destruct (Ascii.ascii_dec c c') as [->|Hne].
    + rewrite IH. split; intros (rest & Hrest); exists rest.
      * by rewrite str_app_cons, Hrest.
      * rewrite str_app_cons in Hrest. congruence.
    + split; [done|]. intros (rest & Hrest).
      rewrite str_app_cons in Hrest. congruence.
Qed.

Lemma str_endswith_spec suf s :
  str_endswith suf s = true ↔ ∃ pre, s = pre +:+ suf.
Proof.
  induction s as [|c s IH].
  - change (str_endswith suf "") with (String.eqb "" suf || false).
    rewrite orb_false_r, String.eqb_eq. split.
    + intros <-. by exists "".
    + intros ([|? ?] & Hpre); [done|discriminate Hpre].
  - change (str_endswith suf (String c s))
      with (String.eqb (String c s) suf || str_endswith suf s).
    rewrite orb_true_iff, String.eqb_eq, IH. split.
    + intros [<-|(pre & ->)]; [by exists ""|]. by exists (String c pre).
    + intros ([|c' pre] & Hpre); [by left|]. right. exists pre.
      rewrite str_app_cons in Hpre. congruence.
Qed.

Lemma str_endswith_app suf s t :
  str_endswith suf t = true → str_endswith suf (s +:+ t) = true.
Proof.
  rewrite !str_endswith_spec. intros (pre & ->). exists (s +:+ pre).
  by rewrite str_app_assoc.
Qed.

Lemma replace_go_short old new k s :
  String.length s ≤ k → replace_go old new k s = "".
Proof.
  revert k. induction s as [|c s IH]; intros k Hk; [done|].
  simpl in *. destruct k as [|k]; [lia|]. apply IH. lia.
Qed.

Lemma replace_go_kismet_json k s :
  no_dot k s → (∃ pre, s = pre +:+ ".kismet") →
  str_endswith ".json" (replace_go ".kismet" ".json" k s) = true.
Proof.
  revert k. induction s as [|c s IH]; intros k Hk (pre & Hpre).
  { by destruct pre. }
  assert (pre = "" ∧ String c s = ".kismet"
          ∨ ∃ pre', pre = String c pre' ∧ s = pre' +:+ ".kismet") as Hcases.
  { destruct pre as [|c' pre']; [by left|]. right. exists pre'.
    rewrite str_app_cons in Hpre. by injection Hpre as -> ->. }
  destruct k as [|k].
  - cbn [replace_go]. destruct (String.prefix ".kismet" (String c s)) eqn:Hp.
    + apply str_prefix_spec in Hp as (rest & Hrest).
      rewrite !str_app_cons, str_app_nil_l in Hrest. injection Hrest as -> ->.
      destruct Hcases as [[_ Hs]|(pre' & -> & Hs)].
      * assert (rest = "") as -> by congruence. reflexivity.
      * apply (str_endswith_app _ ".json").
        apply IH; [|by exists pre']. simpl. by repeat split.
    + destruct Hcases as [[_ Hs]|(pre' & -> & ->)].
      * rewrite Hs in Hp. done.
      * apply (str_endswith_app _ (String c "")). apply IH; [done|by eexists].
  - cbn [replace_go]. destruct Hk as [Hc Hk].
    destruct Hcases as [[_ Hs]|(pre' & -> & ->)].
    + by injection Hs as -> _.
    + apply IH; [done|by eexists].
Qed.

Lemma str_last_differs pre pre' :
  pre +:+ ".kismet" ≠ pre' +:+ ".json".
Proof.
  intros Heq.
  assert (String.rev (pre +:+ ".kismet") = String.rev (pre' +:+ ".json"))
    as Hrev by (by rewrite Heq).
  assert (∀ s t acc, String.rev_app (s +:+ t) acc
                     = String.rev_app t (String.rev_app s acc)) as Happ.
  { induction s as [|c s IH]; intros t acc; [done|].
    rewrite str_app_cons. simpl. by rewrite IH. }
  unfold String.rev in Hrev. rewrite !Happ in Hrev. simpl in Hrev.
  discriminate Hrev.
Qed.

End setup_strings.

(** X11.  The JSON file of a log: when the name of the log ends in
    [.kismet], the name [run_conversion_prompt] derives from it ends in
    [.json], and so is never the name of the log itself. *)
Theorem json_file_name (kismet_file : string) :
  str_endswith ".kismet" kismet_file = true →
  str_endswith ".json" (str_replace ".kismet" ".json" kismet_file) = true ∧
  str_replace ".kismet" ".json" kismet_file ≠ kismet_file.
Proof.
  intros Hk.
  assert (str_endswith ".json" (str_replace ".kismet" ".json" kismet_file)
          = true) as Hj.
  { apply replace_go_kismet_json; [done|]. by apply str_endswith_spec. }
  split; [done|]. intros Heq. rewrite Heq in Hj.
  apply str_endswith_spec in Hk as (pre & Hk), Hj as (pre' & Hj).
  apply (str_last_differs pre pre'). congruence.
Qed.

Lemma json_file_name_witness :
  str_endswith ".json"
    (str_replace ".kismet" ".json" "/logs/.kismet/site.kismet") = true ∧
  str_replace ".kismet" ".json" "/logs/.kismet/site.kismet"
  ≠ "/logs/.kismet/site.kismet".
Proof. apply json_file_name. reflexivity. Defined.

Section setup_facts.

Variables py_lower py_strip : string → string.

(** How a sequence of two steps ends. *)
Lemma io_bind_inv {A B} (m : io A) (f : A → io B) (replies rest : list string)
    (events : list event) (o : outcome B) :
  (m ≫= f) replies = (events, rest, o) →
  (∃ events1 rest1 a events2,
     m replies = (events1, rest1, Returned a) ∧
     f a rest1 = (events2, rest, o) ∧ events = events1 ++ events2) ∨
  (∃ code, m replies = (events, rest, Exited code) ∧ o = Exited code) ∨
  (∃ e, m replies = (events, rest, Raised e) ∧ o = Raised e).
Proof.
  unfold mbind, io_bind.
  destruct (m replies) as [[events1 rest1] [a|code|e]].
  - destruct (f a rest1) as [[events2 rest2] o2] eqn:Hf.
    intros [= <- <- <-]. left. by exists events1, rest1, a, events2.
  - intros [= <- <- <-]. right; left. by exists code.
  - intros [= <- <- <-]. right; right. by exists e.
Qed.

(** Every way [run_conversion_prompt] can go. *)
Lemma run_conversion_prompt_table (kismet_file : string) (json_exists : bool)
    (failure : option (Z * string)) (replies : list string) :
  let json_file := str_replace ".kismet" ".json" kismet_file in
  let command := conversion_command kismet_file json_file in
  let ask := [Printed NeedsCommand; Printed (ShowCommand command);
              Prompted Proceed] in
  let convert (before : list event) (replies : list string) :=
    match replies with
    | [] => (before ++ ask, [], Raised EOFError)
    | confirm :: rest =>
        if accepted py_lower py_strip confirm then
          match failure with
          | None =>
              (before ++ ask
               ++ [Typed confirm; Printed (RunningConversion kismet_file);
                   Ran command; Printed (ConversionDone json_file)],
               rest, Returned json_file)
          | Some (returncode, stderr) =>
              (before ++ ask
               ++ [Typed confirm; Printed (RunningConversion kismet_file);
                   Ran command; Printed ConversionError;
                   Printed (ReturnCode returncode);
                   Printed (Stderr (py_strip stderr))],
               rest, Exited 1%Z)
          end
        else
          (before ++ ask ++ [Typed confirm; Printed ConversionCancelled],
           rest, Exited 0%Z)
    end in
  run_conversion_prompt py_lower py_strip kismet_file json_exists failure
                        replies
  = if negb (str_endswith ".kismet" kismet_file)
    then ([Printed NotKismetFile], replies, Exited 1%Z)
    else if json_exists then
      match replies with
      | [] => ([Prompted (UseExisting json_file)], [], Raised EOFError)
      | overwrite :: rest =>
          if accepted py_lower py_strip overwrite
          then ([Prompted (UseExisting json_file); Typed overwrite;
                 Printed (UsingExisting json_file)], rest, Returned json_file)
          else convert [Prompted (UseExisting json_file); Typed overwrite] rest
      end
    else convert [] replies.
Proof.
  unfold run_conversion_prompt.
  destruct (str_endswith ".kismet" kismet_file); [|done].
  destruct json_exists; simpl.
  - destruct replies as [|overwrite [|confirm rest]]; [done| |].
    + unfold mbind, io_bind, input. simpl.
      by destruct (accepted py_lower py_strip overwrite).
    + unfold mbind, io_bind, input. simpl.
      destruct (accepted py_lower py_strip overwrite); [done|]. simpl.
      destruct (accepted py_lower py_strip confirm); [|done]. simpl.
      by destruct failure as [[returncode stderr]|].
  - destruct replies as [|confirm rest]; [done|].
    unfold mbind, io_bind, input. simpl.
    destruct (accepted py_lower py_strip confirm); [|done]. simpl.
    by destruct failure as [[returncode stderr]|].
Qed.

(** X12.  The conversion command is run with the consent of the user only:
    [run_conversion_prompt] runs no command at all, or runs one command,
    the [kismet_log_to_json] command from the log to its JSON file, right
    after it asked whether to proceed and read a reply that, lowered and
    stripped, is empty or [y]. *)
Theorem conversion_needs_consent (kismet_file : string) (json_exists : bool)
    (failure : option (Z * string)) (replies rest : list string)
    (events : list event) (o : outcome string) :
  run_conversion_prompt py_lower py_strip kismet_file json_exists failure
                        replies
  = (events, rest, o) →
  ran events = [] ∨
  ∃ before reply after,
    events
    = before
      ++ [Prompted Proceed; Typed reply;
          Printed (RunningConversion kismet_file);
          Ran (conversion_command kismet_file
                 (str_replace ".kismet" ".json" kismet_file))]
      ++ after ∧
    accepted py_lower py_strip reply = true ∧
    ran before = [] ∧ ran after = [].
Proof.
  rewrite run_conversion_prompt_table.
  destruct (str_endswith ".kismet" kismet_file); simpl;
    [|intros [= <- <- <-]; by left].
  destruct json_exists.
  - destruct replies as [|overwrite [|confirm replies]];
      [intros [= <- <- <-]; by left| |].
    + destruct (accepted py_lower py_strip overwrite);
        intros [= <- <- <-]; by left.
    + destruct (accepted py_lower py_strip overwrite);
        [intros [= <- <- <-]; by left|].
      destruct (accepted py_lower py_strip confirm) eqn:Hok;
        [|intros [= <- <- <-]; by left].
      destruct failure as [[returncode stderr]|]; intros [= <- <- <-]; right;
        eexists [_; _; _; _], confirm, _; by split_and!.
  - destruct replies as [|confirm replies]; [intros [= <- <- <-]; by left|].
    destruct (accepted py_lower py_strip confirm) eqn:Hok;
      [|intros [= <- <- <-]; by left].
    destruct failure as [[returncode stderr]|]; intros [= <- <- <-]; right;
      eexists [_; _], confirm, _; by split_and!.
Qed.

(** X13.  How [run_conversion_prompt] ends.  The lines it read and the
    lines it left are the lines it was given.  It returns the JSON file
    name of a [.kismet] log, after the user took the existing file and no
    command ran, or after the command ran and succeeded.  It exits with 1
    for a file that is no [.kismet] log, before it reads anything, or
    after the command ran and failed; it exits with 0 after a last reply
    that is no consent, with no command run.  At the end of standard
    input it raises [EOFError], with no command run. *)
Theorem conversion_prompt_outcome (kismet_file : string) (json_exists : bool)
    (failure : option (Z * string)) (replies rest : list string)
    (events : list event) (o : outcome string) :
  run_conversion_prompt py_lower py_strip kismet_file json_exists failure
                        replies
  = (events, rest, o) →
  typed events ++ rest = replies ∧
  match o with
  | Returned json_file =>
      str_endswith ".kismet" kismet_file = true ∧
      json_file = str_replace ".kismet" ".json" kismet_file ∧
      (ran events = [] ∧ json_exists = true
       ∧ Printed (UsingExisting json_file) ∈ events
       ∨ ran events ≠ [] ∧ failure = None)
  | Exited code =>
      (code = 1%Z ∧ str_endswith ".kismet" kismet_file = false
       ∧ events = [Printed NotKismetFile])
      ∨ (code = 1%Z ∧ ran events ≠ [] ∧ failure ≠ None)
      ∨ (code = 0%Z ∧ ran events = []
         ∧ ∃ reply, last (typed events) = Some reply
                    ∧ accepted py_lower py_strip reply = false)
  | Raised e => e = EOFError ∧ rest = [] ∧ ran events = []
  end.
Proof.
  rewrite run_conversion_prompt_table.
  destruct (str_endswith ".kismet" kismet_file); simpl;
    [|intros [= <- <- <-]; split; [done|by left]].
  destruct json_exists.
  - destruct replies as [|overwrite [|confirm replies]];
      [intros [= <- <- <-]; by split_and!| |].
    + destruct (accepted py_lower py_strip overwrite);
        intros [= <- <- <-]; [|by split_and!].
      split_and!; [done..|]. left. split_and!; [done..|].
      apply elem_of_cons; right. apply elem_of_cons; right. by left.
    + destruct (accepted py_lower py_strip overwrite).
      { intros [= <- <- <-]. split_and!; [done..|]. left. split_and!; [done..|].
        apply elem_of_cons; right. apply elem_of_cons; right. by left. }
      destruct (accepted py_lower py_strip confirm) eqn:Hok.
      * destruct failure as [[returncode stderr]|]; intros [= <- <- <-].
        -- split; [done|]. right; left. by split_and!.
        -- split_and!; [done..|]. right. by split.
      * intros [= <- <- <-]. split; [done|]. right; right.
        split_and!; [done..|]. by exists confirm.
  - destruct replies as [|confirm replies];
      [intros [= <- <- <-]; by split_and!|].
    destruct (accepted py_lower py_strip confirm) eqn:Hok.
    + destruct failure as [[returncode stderr]|]; intros [= <- <- <-].
      * split; [done|]. right; left. by split_and!.
      * split_and!; [done..|]. right. by split.
    + intros [= <- <- <-]. split; [done|]. right; right.
      split_and!; [done..|]. by exists confirm.
Qed.

Lemma conversion_prompt_quiet (kismet_file : string) (json_exists : bool)
    (failure : option (Z * string)) (replies rest : list string)
    (events : list event) (o : outcome string) :
  run_conversion_prompt py_lower py_strip kismet_file json_exists failure
                        replies
  = (events, rest, o) →
  reported events = [] ∧
  match o with
  | Returned _ => True
  | Exited code => code = 0%Z ∨ code = 1%Z
  | Raised e => e = EOFError
  end.
Proof.
  rewrite run_conversion_prompt_table.
  destruct (str_endswith ".kismet" kismet_file); simpl;
    [|intros [= <- <- <-]; split; [done|by right]].
  destruct json_exists.
  - destruct replies as [|overwrite [|confirm replies]];
      [intros [= <- <- <-]; by split| |].
    + destruct (accepted py_lower py_strip overwrite);
        intros [= <- <- <-]; by split.
    + destruct (accepted py_lower py_strip overwrite);
        [intros [= <- <- <-]; by split|].
      destruct (accepted py_lower py_strip confirm);
        [|intros [= <- <- <-]; split; [done|by left]].
      destruct failure as [[returncode stderr]|]; intros [= <- <- <-];
        split; try done. by right.
  - destruct replies as [|confirm replies]; [intros [= <- <- <-]; by split|].
    destruct (accepted py_lower py_strip confirm);
      [|intros [= <- <- <-]; split; [done|by left]].
    destruct failure as [[returncode stderr]|]; intros [= <- <- <-];
      split; try done. by right.
Qed.

Lemma reported_app (events events' : list event) :
  reported (events ++ events') = reported events ++ reported events'.
Proof. apply omap_app. Qed.

Lemma reported_lines (lines : list line) : reported (Reported <$> lines) = lines.
Proof.
  induction lines as [|l lines IH]; [done|].
  rewrite fmap_cons.
  change (reported (Reported l :: (Reported <$> lines)))
    with (l :: reported (Reported <$> lines)).
  by rewrite IH.
Qed.

Lemma parse_kismet_log_file_quiet (file_path : string)
    (content : option (list decoded)) (replies rest : list string)
    (events : list event) (o : outcome tables) :
  parse_kismet_log_file file_path content replies = (events, rest, o) →
  reported events = [] ∧
  match o with
  | Returned t =>
      events = [] ∧
      ∃ file_lines lines,
        content = Some file_lines ∧ mapM as_log_line file_lines = Some lines ∧
        t = parse_kismet_log lines
  | Exited _ => True
  | Raised e => e = AttributeError
  end.
Proof.
  unfold parse_kismet_log_file.
  destruct content as [file_lines|]; [|by intros [= <- <- <-]].
  destruct (mapM as_log_line file_lines) as [lines|] eqn:Hlines;
    intros [= <- <- <-]; [|done].
  split; [done|]. split; [done|]. by exists file_lines, lines.
Qed.


End setup_facts.

Lemma conversion_needs_consent_witness :
  let r := run_conversion_prompt unchanged unchanged "site.kismet" false None
             ["y"] in
  ran r.1.1 = [] ∨
  ∃ before reply after,
    r.1.1
    = before
      ++ [Prompted Proceed; Typed reply;
          Printed (RunningConversion "site.kismet");
          Ran (conversion_command "site.kismet"
                 (str_replace ".kismet" ".json" "site.kismet"))]
      ++ after ∧
    accepted unchanged unchanged reply = true ∧
    ran before = [] ∧ ran after = [].
Proof.
  intros r.
  apply (conversion_needs_consent unchanged unchanged "site.kismet" false None
           ["y"] r.1.2 r.1.1 r.2).
  unfold r.
  by destruct (run_conversion_prompt unchanged unchanged "site.kismet" false
                 None ["y"]) as [[? ?] ?].
Defined.

Lemma conversion_prompt_outcome_witness :
  let r := run_conversion_prompt unchanged unchanged "site.kismet" true None
             ["yes"; "yes"; "y"] in
  typed r.1.1 ++ r.1.2 = ["yes"; "yes"; "y"].
Proof.
  intros r.
  apply (conversion_prompt_outcome unchanged unchanged "site.kismet" true
           None ["yes"; "yes"; "y"] r.1.2 r.1.1 r.2).
  unfold r.
  by destruct (run_conversion_prompt unchanged unchanged "site.kismet" true
                 None ["yes"; "yes"; "y"]) as [[? ?] ?].
Defined.


(** X15.  Encryption is compared as text, the other two fields as values.
    For the last AP records [d] and [d'] of a MAC in two logs, the diff of
    the stored entries holds an encryption change exactly when the texts
    [str] gives the two encryption sets differ, so an integer and the
    string of its digits, or an absent set and the string [Unknown], are
    no change; it holds a channel change exactly when the two channels
    differ under [!=], so the integer 6 and the string 6 are one. *)
Theorem encryption_compared_as_text (pre post pre' post' : list log_line)
    (d d' : device) (mac : string) :
  ap_record mac d → ap_record mac d' →
  (∀ e, Some e ∈ post → ¬ ap_record mac e) →
  (∀ e, Some e ∈ post' → ¬ ap_record mac e) →
  ∃ a a',
    aps (parse_kismet_log (pre ++ Some d :: post)) !! mac = Some a ∧
    aps (parse_kismet_log (pre' ++ Some d' :: post')) !! mac = Some a' ∧
    (EncryptionChanged (crypt a) (crypt a') ∈ _get_ap_changes a a'
     ↔ py_str (get_default (dot11_network_crypt_set d) (VStr "Unknown"))
       ≠ py_str (get_default (dot11_network_crypt_set d') (VStr "Unknown"))) ∧
    (ChannelChanged (channel a) (channel a') ∈ _get_ap_changes a a'
     ↔ py_ne (get_default (kismet_common_channel d) (VStr "N/A"))
             (get_default (kismet_common_channel d') (VStr "N/A")) = true).
Proof.
  intros Hd Hd' Hpost Hpost'. exists (ap_of d), (ap_of d').
  split; [by apply aps_last_write|]. split; [by apply aps_last_write|].
  destruct (get_ap_changes_spec (ap_of d) (ap_of d')) as [_ Hin].
  split; rewrite Hin; simpl.
  - split; [|by intros ?; right; right].
    intros [[? _]|[[? _]|[_ ?]]]; done.
  - split; [|by intros ?; right; left].
    intros [[? _]|[[_ ?]|[? _]]]; done.
Qed.

Lemma encryption_compared_as_text_witness :
  ∃ a a',
    aps (parse_kismet_log [Some (dev_ap "AA:AA" None (Some (VInt 6))
                                        (Some (VInt 3)))]) !! "AA:AA"
    = Some a ∧
    aps (parse_kismet_log [Some (dev_ap "AA:AA" None (Some (VStr "6"))
                                        (Some (VStr "3")))]) !! "AA:AA"
    = Some a' ∧
    _get_ap_changes a a' = [ChannelChanged (VInt 6) (VStr "6")].
Proof.
  destruct (encryption_compared_as_text [] [] [] []
              (dev_ap "AA:AA" None (Some (VInt 6)) (Some (VInt 3)))
              (dev_ap "AA:AA" None (Some (VStr "6")) (Some (VStr "3")))
              "AA:AA") as (a & a' & Ha & Ha' & _ & _).
  - by apply ap_record_dev_ap.
  - by apply ap_record_dev_ap.
  - intros e He. by apply elem_of_nil in He.
  - intros e He. by apply elem_of_nil in He.
  - exists a, a'. split; [exact Ha|]. split; [exact Ha'|].
    vm_compute in Ha, Ha'. injection Ha as <-. injection Ha' as <-.
    reflexivity.
Defined.
